(** * heng_s64_shift: 64-bit shifts on a pair of 32-bit lanes

    A shallow embedding of [src/main.cpp].  The program splits a signed
    64-bit integer into a signed high lane and an unsigned low lane, shifts
    the pair with two variants of each direction (the macros
    [s64b_LSHIFT_2] / [s64b_RSHIFT_2] and the functions [s64b_lshift] /
    [s64b_rshift]) and compares the two results.

    Fixed-width integers are values of [Z] with the wrap-around written out.
    Undefined behaviour is the [None] of an option monad.  The source is
    C++17 (it uses structured bindings), so the shifts follow the rules of
    that standard:
      - a shift amount that is negative or not smaller than the width of the
        promoted left operand is undefined;
      - [x << n] on a signed non-negative [x] is defined when [x * 2^n] is
        representable in the unsigned type of the same width, and is that
        product converted to the signed type; otherwise it is undefined;
      - [x << n] on a signed negative [x] is undefined;
      - [x >> n] on a signed negative [x] is implementation-defined: GCC and
        Clang (the source needs one of them for [__builtin_clzll]) shift
        arithmetically, which on [Z] is [Z.shiftr].
    The header comment of the source quotes the rules of C99, which are
    stricter for [<<]: there the product has to fit the signed type itself.
    Shifts of unsigned operands wrap.  Conversions between the signed and
    unsigned 32-bit types wrap modulo 2^32, as GCC and Clang implement
    them. *)

From Stdlib Require Import ZArith Lia List Bool.
Import ListNotations.
Local Open Scope Z_scope.

(** ** Fixed-width integers *)

Definition INT32_MAX : Z := 2 ^ 31 - 1.
Definition INT32_MIN : Z := - 2 ^ 31.
Definition UINT32_MAX : Z := 2 ^ 32 - 1.
Definition INT64_MAX : Z := 2 ^ 63 - 1.
Definition INT64_MIN : Z := - 2 ^ 63.
Definition UINT64_MAX : Z := 2 ^ 64 - 1.

Definition is_s32b (v : Z) : Prop := INT32_MIN <= v <= INT32_MAX.
Definition is_u32b (v : Z) : Prop := 0 <= v <= UINT32_MAX.
Definition is_s64b (v : Z) : Prop := INT64_MIN <= v <= INT64_MAX.

(** Conversion to an unsigned type of [w] bits: reduction modulo 2^w. *)
Definition to_unsigned (w v : Z) : Z := v mod 2 ^ w.

(** Conversion to a signed type of [w] bits: the two's complement reading of
    the low [w] bits. *)
Definition to_signed (w v : Z) : Z :=
  let u := to_unsigned w v in
  if u <? 2 ^ (w - 1) then u else u - 2 ^ w.

Definition to_u32b : Z -> Z := to_unsigned 32.
Definition to_s32b : Z -> Z := to_signed 32.
Definition to_u64b : Z -> Z := to_unsigned 64.
Definition to_s64b : Z -> Z := to_signed 64.

(** ** Undefined behaviour as an error monad *)

Definition ub_bind {A B : Type} (m : option A) (k : A -> option B) : option B :=
  match m with
  | Some a => k a
  | None => None
  end.

Notation "x <- m ;; k" := (ub_bind m (fun x => k))
  (at level 61, m at next level, right associativity).

(** A shift amount is usable when it lies in [0, w). *)
Definition amount_ok (w n : Z) : bool := (0 <=? n) && (n <? w).

(** [v << n] on an [s32b] lane: defined for a non-negative [v] whose product
    with [2^n] fits the unsigned 32-bit type; the result is that product
    converted to [int]. *)
Definition s32b_shl (v n : Z) : option Z :=
  if amount_ok 32 n && (0 <=? v) && (v * 2 ^ n <=? UINT32_MAX)
  then Some (to_s32b (Z.shiftl v n))
  else None.

(** [v >> n] on an [s32b] lane. *)
Definition s32b_shr (v n : Z) : option Z :=
  if amount_ok 32 n then Some (Z.shiftr v n) else None.

(** [v << n] on a [u32b] lane. *)
Definition u32b_shl (v n : Z) : option Z :=
  if amount_ok 32 n then Some (to_u32b (Z.shiftl v n)) else None.

(** [v >> n] on a [u32b] lane. *)
Definition u32b_shr (v n : Z) : option Z :=
  if amount_ok 32 n then Some (Z.shiftr v n) else None.

(** ** The pair of lanes *)

Definition HalfPair : Type := (Z * Z)%type.

(** [unpack_s64b]: [hi = (s32b)(x >> 32)], [lo = (u32b)(x & ((1 << 32) - 1))].
    Both shifts have the constant amount 32 on a 64-bit operand, and
    [INT64_C(1) << 32] is representable, so nothing here is undefined. *)
Definition unpack_s64b (x : Z) : HalfPair :=
  let hi := to_s32b (Z.shiftr x 32) in
  let lo := to_u32b (Z.land x (Z.shiftl 1 32 - 1)) in
  (hi, lo).

(** Modelled from the spec: the source has no function that reassembles a
    pair; the spec's [join] is
    [(high widened to 64-bit) << 32 | low widened to 64-bit (zero-extended)],
    read as an operation on the 64-bit pattern. *)
Definition join (p : HalfPair) : Z :=
  to_s64b (Z.lor (Z.shiftl (fst p) 32) (snd p)).

(** ** The shift variants *)

(** [#define s64b_LSHIFT_2(V1, V2, N)
      {V1 = (V1<<(N)) | (V2>>(32-(N))); V2 <<= (N);}]
    [V1<<(N)] is an [int]; or-ing it with the unsigned [V2>>(32-(N))]
    converts it to unsigned, and the assignment converts the result back. *)
Definition s64b_LSHIFT_2 (V1 V2 N : Z) : option HalfPair :=
  a <- s32b_shl V1 N ;;
  b <- u32b_shr V2 (32 - N) ;;
  let V1' := to_s32b (Z.lor (to_u32b a) b) in
  V2' <- u32b_shl V2 N ;;
  Some (V1', V2').

(** [#define s64b_RSHIFT_2(V1, V2, N)
      {V2 = ((u32b)V1<<(32-(N))) | (V2>>(N)); V1 >>= (N);}] *)
Definition s64b_RSHIFT_2 (V1 V2 N : Z) : option HalfPair :=
  a <- u32b_shl (to_u32b V1) (32 - N) ;;
  b <- u32b_shr V2 N ;;
  let V2' := Z.lor a b in
  V1' <- s32b_shr V1 N ;;
  Some (V1', V2').

(** [s64b_lshift]:
    [if (n == 0) return;
     *hi = (s32b)((u32b)( *hi << n) | ( *lo >> (32 - n)));
     *lo <<= n;] *)
Definition s64b_lshift (hi lo n : Z) : option HalfPair :=
  if n =? 0 then Some (hi, lo)
  else
    a <- s32b_shl hi n ;;
    b <- u32b_shr lo (32 - n) ;;
    let hi' := to_s32b (Z.lor (to_u32b a) b) in
    lo' <- u32b_shl lo n ;;
    Some (hi', lo').

(** [s64b_rshift]:
    [if (n == 0) return;
     *lo = ((u32b)*hi << (32 - n)) | ( *lo >> n);
     *hi >>= n;] *)
Definition s64b_rshift (hi lo n : Z) : option HalfPair :=
  if n =? 0 then Some (hi, lo)
  else
    a <- u32b_shl (to_u32b hi) (32 - n) ;;
    b <- u32b_shr lo n ;;
    let lo' := Z.lor a b in
    hi' <- s32b_shr hi n ;;
    Some (hi', lo').

Definition f_lshift_macro (x n : Z) : option HalfPair :=
  let '(hi, lo) := unpack_s64b x in s64b_LSHIFT_2 hi lo n.

Definition f_rshift_macro (x n : Z) : option HalfPair :=
  let '(hi, lo) := unpack_s64b x in s64b_RSHIFT_2 hi lo n.

Definition f_lshift (x n : Z) : option HalfPair :=
  let '(hi, lo) := unpack_s64b x in s64b_lshift hi lo n.

Definition f_rshift (x n : Z) : option HalfPair :=
  let '(hi, lo) := unpack_s64b x in s64b_rshift hi lo n.

(** ** The checker *)

Inductive direction : Type := Lshift | Rshift.

(** One line of the mismatch sink:
    ["lshift error: x={}, n={}, hi={}, lo={}, hi_m={}, lo_m={}"]. *)
Record report : Type := mk_report {
  r_dir : direction;
  r_x : Z;
  r_n : Z;
  r_guarded : HalfPair;
  r_macro : HalfPair
}.

(** [std::tie(hi, lo) != std::tie(hi_m, lo_m)], negated. *)
Definition HalfPair_eqb (p q : HalfPair) : bool :=
  (fst p =? fst q) && (snd p =? snd q).

Definition check_lshift (x n : Z) : option (list report) :=
  p <- f_lshift x n ;;
  q <- f_lshift_macro x n ;;
  Some (if HalfPair_eqb p q then [] else [mk_report Lshift x n p q]).

Definition check_rshift (x n : Z) : option (list report) :=
  p <- f_rshift x n ;;
  q <- f_rshift_macro x n ;;
  Some (if HalfPair_eqb p q then [] else [mk_report Rshift x n p q]).

(** ** The driver *)

(** Number of zero bits above the highest set bit among the low [k] bits,
    scanning down from bit [k - 1]. *)
Fixpoint clz_below (k : nat) (u : Z) : Z :=
  match k with
  | O => 0
  | S k' => if Z.testbit u (Z.of_nat k') then 0 else 1 + clz_below k' u
  end.

(** [__builtin_clzll] on an unsigned 64-bit operand.  The compiler leaves the
    result at 0 undefined; the only caller excludes 0 beforehand
    (see [lshift_count_max_operand_nonzero]). *)
Definition builtin_clzll (u : Z) : Z := clz_below 64 u.

(** [if (x == 0) return 31;
     return std::min(31, __builtin_clzll((u64b)x) - 1);] *)
Definition lshift_count_max (x : Z) : Z :=
  if x =? 0 then 31
  else Z.min 31 (builtin_clzll (to_u64b x) - 1).

(** [for (int n = start; cond(n); ++n)]: the amounts the body runs at, in
    order.  [fuel] bounds the number of iterations. *)
Fixpoint for_amounts (fuel : nat) (cond : Z -> bool) (n : Z) : list Z :=
  match fuel with
  | O => []
  | S fuel' => if cond n then n :: for_amounts fuel' cond (n + 1) else []
  end.

(** [for (int n = 1; n <= lshift_count_max(x); ++n)]; the bound is evaluated
    again at every iteration, as in the source. *)
Definition lshift_amounts (x : Z) : list Z :=
  for_amounts 32 (fun n => n <=? lshift_count_max x) 1.

(** [for (int n = 1; n <= 31; ++n)]. *)
Definition rshift_amounts : list Z :=
  for_amounts 32 (fun n => n <=? 31) 1.

(** Runs a checker at every amount of a list and collects the reports. *)
Fixpoint check_all (check : Z -> Z -> option (list report)) (x : Z)
  (ns : list Z) : option (list report) :=
  match ns with
  | [] => Some []
  | n :: ns' =>
      r <- check x n ;;
      rs <- check_all check x ns' ;;
      Some (r ++ rs)
  end.

Definition HalfPair_result_eqb (r : option HalfPair) (p : HalfPair) : bool :=
  match r with
  | Some q => HalfPair_eqb q p
  | None => false
  end.

(** The two assertions on the amount 0 in the body of [test]. *)
Definition shift0_asserts (x : Z) : bool :=
  HalfPair_result_eqb (f_lshift x 0) (unpack_s64b x)
  && HalfPair_result_eqb (f_rshift x 0) (unpack_s64b x).

(** The body of the loop of [test] for one sampled value [x].  A failing
    assertion aborts the run, so it yields no result either. *)
Definition test_body (x : Z) : option (list report) :=
  if shift0_asserts x then
    l <- check_all check_lshift x (lshift_amounts x) ;;
    r <- check_all check_rshift x rshift_amounts ;;
    Some (l ++ r)
  else None.

(** The four boundary probes at the start of [main]. *)
Definition main_probes : option (list report) :=
  r1 <- check_lshift 0 1 ;;
  r2 <- check_lshift 0 31 ;;
  r3 <- check_rshift 0 1 ;;
  r4 <- check_rshift 0 31 ;;
  Some (r1 ++ r2 ++ r3 ++ r4).

(** [test]: the body of the loop at every value drawn from the distribution.
    The random engine stays outside the model: [xs] is the sequence of the
    values [dist_x(rng)] returns, in the order of the iterations (the source
    draws 100000 of them). *)
Fixpoint test (xs : list Z) : option (list report) :=
  match xs with
  | [] => Some []
  | x :: xs' =>
      r <- test_body x ;;
      rs <- test xs' ;;
      Some (r ++ rs)
  end.

(** [main]: the four probes, then [test] on the draws [xs1] of the
    distribution over [0, INT64_MAX] and on the draws [xs2] of the
    distribution over [0, 1 << 16].  The result is what the run prints. *)
Definition main (xs1 xs2 : list Z) : option (list report) :=
  r0 <- main_probes ;;
  r1 <- test xs1 ;;
  r2 <- test xs2 ;;
  Some (r0 ++ r1 ++ r2).

(** * Properties *)

(** ** Conversions *)

Lemma to_unsigned_small (w v : Z) :
  0 <= v < 2 ^ w -> to_unsigned w v = v.
Proof. intros H. unfold to_unsigned. now apply Z.mod_small. Qed.

Lemma to_signed_small (w v : Z) :
  0 < w -> - 2 ^ (w - 1) <= v < 2 ^ (w - 1) -> to_signed w v = v.
Proof.
  intros Hw Hv. unfold to_signed, to_unsigned.
  assert (Hp : 2 ^ w = 2 * 2 ^ (w - 1)).
  { replace w with (Z.succ (w - 1)) at 1 by lia. apply Z.pow_succ_r. lia. }
  destruct (Z_lt_le_dec v 0) as [Hneg | Hpos].
  - replace (v mod 2 ^ w) with (v + 2 ^ w).
    + destruct (Z.ltb_spec (v + 2 ^ w) (2 ^ (w - 1))); lia.
    + apply Z.mod_unique with (q := -1); lia.
  - rewrite Z.mod_small by lia.
    destruct (Z.ltb_spec v (2 ^ (w - 1))); lia.
Qed.

Lemma to_s32b_small (v : Z) : is_s32b v -> to_s32b v = v.
Proof.
  unfold is_s32b, INT32_MIN, INT32_MAX. intros H.
  apply to_signed_small; [lia | change (32 - 1) with 31; lia].
Qed.

Lemma to_s64b_small (v : Z) : is_s64b v -> to_s64b v = v.
Proof.
  unfold is_s64b, INT64_MIN, INT64_MAX. intros H.
  apply to_signed_small; [lia | change (64 - 1) with 63; lia].
Qed.

Lemma to_u32b_small (v : Z) : is_u32b v -> to_u32b v = v.
Proof.
  unfold is_u32b, UINT32_MAX. intros H. apply to_unsigned_small. lia.
Qed.

(** ** Splitting and joining *)

Lemma lor_shiftl_add (hi lo k : Z) :
  0 <= k -> 0 <= lo < 2 ^ k -> Z.lor (Z.shiftl hi k) lo = hi * 2 ^ k + lo.
Proof.
  intros Hk Hlo.
  rewrite <- Z.shiftl_mul_pow2 by lia.
  assert (Hdisj : Z.land (Z.shiftl hi k) lo = 0); [
  | rewrite <- Z.lxor_lor by exact Hdisj;
    symmetry; apply Z.add_nocarry_lxor; exact Hdisj ].
  apply Z.bits_inj'. intros i Hi.
  rewrite Z.land_spec, Z.bits_0.
  destruct (Z_lt_le_dec i k) as [Hlt | Hge].
  - rewrite Z.shiftl_spec_low by lia. reflexivity.
  - replace lo with (lo mod 2 ^ k) by (apply Z.mod_small; lia).
    rewrite Z.mod_pow2_bits_high by lia. apply andb_false_r.
Qed.

Lemma unpack_s64b_value (x : Z) :
  is_s64b x -> unpack_s64b x = (x / 2 ^ 32, x mod 2 ^ 32).
Proof.
  unfold is_s64b, INT64_MIN, INT64_MAX. intros Hx.
  unfold unpack_s64b. f_equal.
  - rewrite Z.shiftr_div_pow2 by lia.
    apply to_s32b_small. unfold is_s32b, INT32_MIN, INT32_MAX.
    pose proof (Z.div_mod x (2 ^ 32) ltac:(lia)).
    pose proof (Z.mod_pos_bound x (2 ^ 32) ltac:(lia)). lia.
  - change (Z.shiftl 1 32 - 1) with (Z.ones 32).
    rewrite Z.land_ones by lia.
    apply to_u32b_small. unfold is_u32b, UINT32_MAX.
    pose proof (Z.mod_pos_bound x (2 ^ 32) ltac:(lia)). lia.
Qed.

Lemma unpack_s64b_lanes (x : Z) :
  is_s64b x -> is_s32b (fst (unpack_s64b x)) /\ is_u32b (snd (unpack_s64b x)).
Proof.
  intros Hx. rewrite unpack_s64b_value by assumption. cbn [fst snd].
  unfold is_s64b, INT64_MIN, INT64_MAX in Hx.
  unfold is_s32b, is_u32b, INT32_MIN, INT32_MAX, UINT32_MAX.
  pose proof (Z.div_mod x (2 ^ 32) ltac:(lia)).
  pose proof (Z.mod_pos_bound x (2 ^ 32) ltac:(lia)). lia.
Qed.

Lemma join_value (hi lo : Z) :
  is_s32b hi -> is_u32b lo -> join (hi, lo) = hi * 2 ^ 32 + lo.
Proof.
  unfold is_s32b, is_u32b, INT32_MIN, INT32_MAX, UINT32_MAX.
  intros Hhi Hlo. unfold join. cbn [fst snd].
  rewrite lor_shiftl_add by lia.
  apply to_s64b_small. unfold is_s64b, INT64_MIN, INT64_MAX. lia.
Qed.

Lemma join_unpack_inverse (x : Z) : is_s64b x -> join (unpack_s64b x) = x.
Proof.
  intros Hx.
  destruct (unpack_s64b_lanes x Hx) as [Hhi Hlo].
  destruct (unpack_s64b x) as [hi lo] eqn:E.
  rewrite join_value by assumption.
  rewrite unpack_s64b_value in E by assumption.
  injection E as <- <-.
  symmetry. rewrite Z.mul_comm. apply Z.div_mod. lia.
Qed.

(** On well-formed pairs [join] is one-to-one, so the value it returns
    determines the pair. *)
Lemma join_injective (p q : HalfPair) :
  is_s32b (fst p) -> is_u32b (snd p) -> is_s32b (fst q) -> is_u32b (snd q) ->
  join p = join q -> p = q.
Proof.
  destruct p as [h l], q as [h' l']. cbn [fst snd].
  intros Hh Hl Hh' Hl' E.
  rewrite !join_value in E by assumption.
  unfold is_u32b, UINT32_MAX in *.
  assert (h = h') by lia. subst h'.
  f_equal. lia.
Qed.

(** C5: for every 64-bit signed value [x] (negative values, [INT64_MIN] and
    [INT64_MAX] included), [unpack_s64b] splits [x] into a signed 32-bit high
    lane and an unsigned 32-bit low lane, and joining that pair gives [x]
    back. *)
Theorem join_unpack_s64b (x : Z) :
  is_s64b x ->
  is_s32b (fst (unpack_s64b x)) /\ is_u32b (snd (unpack_s64b x)) /\
  join (unpack_s64b x) = x.
Proof.
  intros Hx. destruct (unpack_s64b_lanes x Hx) as [Hhi Hlo].
  split; [exact Hhi |]. split; [exact Hlo |].
  exact (join_unpack_inverse x Hx).
Qed.

Lemma join_unpack_s64b_witness :
  is_s64b INT64_MIN /\
  is_s32b (fst (unpack_s64b INT64_MIN)) /\
  is_u32b (snd (unpack_s64b INT64_MIN)) /\
  join (unpack_s64b INT64_MIN) = INT64_MIN.
Proof.
  assert (H : is_s64b INT64_MIN) by (unfold is_s64b, INT64_MIN, INT64_MAX; lia).
  split; [exact H | exact (join_unpack_s64b INT64_MIN H)].
Defined.

(** ** Leading zeros and the largest safe amount *)

Lemma clz_below_spec (k : nat) (u : Z) :
  0 < u < 2 ^ Z.of_nat k ->
  0 <= clz_below k u < Z.of_nat k /\
  2 ^ (Z.of_nat k - 1 - clz_below k u) <= u < 2 ^ (Z.of_nat k - clz_below k u).
Proof.
  induction k as [| k IH]; intros Hu.
  - cbn in Hu. lia.
  - cbn [clz_below].
    rewrite Nat2Z.inj_succ, Z.pow_succ_r in Hu by lia.
    assert (Hpos : 0 < 2 ^ Z.of_nat k) by (apply Z.pow_pos_nonneg; lia).
    destruct (Z.testbit u (Z.of_nat k)) eqn:Hb.
    + apply Z.testbit_true in Hb; [| lia].
      assert (2 ^ Z.of_nat k <= u).
      { destruct (Z_lt_le_dec u (2 ^ Z.of_nat k)) as [Hlt | Hge]; [| exact Hge].
        rewrite Z.div_small in Hb by lia. discriminate Hb. }
      rewrite Nat2Z.inj_succ.
      replace (Z.succ (Z.of_nat k) - 1 - 0) with (Z.of_nat k) by lia.
      replace (Z.succ (Z.of_nat k) - 0) with (Z.succ (Z.of_nat k)) by lia.
      rewrite Z.pow_succ_r by lia. lia.
    + apply Z.testbit_false in Hb; [| lia].
      assert (Hlt : u < 2 ^ Z.of_nat k).
      { destruct (Z_lt_le_dec u (2 ^ Z.of_nat k)) as [Hlt | Hge]; [exact Hlt |].
        replace (u / 2 ^ Z.of_nat k) with 1 in Hb; [discriminate Hb |].
        apply Z.div_unique with (r := u - 2 ^ Z.of_nat k); lia. }
      destruct (IH (conj (proj1 Hu) Hlt)) as [Hc Hr].
      rewrite Nat2Z.inj_succ.
      replace (Z.succ (Z.of_nat k) - 1 - (1 + clz_below k u))
        with (Z.of_nat k - 1 - clz_below k u) by lia.
      replace (Z.succ (Z.of_nat k) - (1 + clz_below k u))
        with (Z.of_nat k - clz_below k u) by lia.
      lia.
Qed.

Lemma builtin_clzll_spec (u : Z) :
  0 < u < 2 ^ 64 ->
  0 <= builtin_clzll u < 64 /\
  2 ^ (63 - builtin_clzll u) <= u < 2 ^ (64 - builtin_clzll u).
Proof.
  intros Hu. unfold builtin_clzll.
  exact (clz_below_spec 64 u Hu).
Qed.

(** The operand of [__builtin_clzll] in [lshift_count_max] is never 0. *)
Lemma lshift_count_max_operand_nonzero (x : Z) :
  is_s64b x -> x <> 0 -> 0 < to_u64b x < 2 ^ 64.
Proof.
  unfold is_s64b, INT64_MIN, INT64_MAX, to_u64b, to_unsigned.
  intros Hx Hnz.
  pose proof (Z.mod_pos_bound x (2 ^ 64) ltac:(lia)) as Hb.
  destruct (Z.eq_dec (x mod 2 ^ 64) 0) as [E | E]; [| lia].
  apply Z.mod_divide in E; [| lia].
  destruct E as [q Hq]. lia.
Qed.

Lemma lshift_count_max_le_31 (x : Z) : lshift_count_max x <= 31.
Proof.
  unfold lshift_count_max. destruct (x =? 0); lia.
Qed.

(** For a positive [x], the result is 62 minus the position of the highest
    set bit, capped at 31. *)
Lemma lshift_count_max_pos (x : Z) :
  0 < x <= INT64_MAX ->
  exists c, 1 <= c < 64 /\ 2 ^ (63 - c) <= x < 2 ^ (64 - c) /\
            lshift_count_max x = Z.min 31 (c - 1).
Proof.
  unfold INT64_MAX. intros Hx.
  unfold lshift_count_max.
  destruct (Z.eqb_spec x 0) as [E | _]; [lia |].
  assert (Hu : to_u64b x = x) by (apply to_unsigned_small; lia).
  rewrite Hu.
  destruct (builtin_clzll_spec x ltac:(lia)) as [Hc Hr].
  exists (builtin_clzll x). split; [| split; [exact Hr | reflexivity]].
  destruct (Z.eq_dec (builtin_clzll x) 0) as [E | E]; [| lia].
  rewrite E in Hr. change (63 - 0) with 63 in Hr. lia.
Qed.

Lemma pow2_split (a b : Z) : 0 <= a -> 0 <= b -> 2 ^ (a + b) = 2 ^ a * 2 ^ b.
Proof. intros. apply Z.pow_add_r; assumption. Qed.

(** C6: [lshift_count_max 0] is 31; for a positive [x] the result [n] lies in
    0..31, [x * 2^n] still fits the signed 64-bit range, and [x * 2^(n+1)]
    does not whenever [n + 1 <= 31]. *)
Theorem lshift_count_max_correct :
  lshift_count_max 0 = 31 /\
  forall x : Z, 0 < x <= INT64_MAX ->
    0 <= lshift_count_max x <= 31 /\
    x * 2 ^ lshift_count_max x <= INT64_MAX /\
    (lshift_count_max x + 1 <= 31 ->
     INT64_MAX < x * 2 ^ (lshift_count_max x + 1)).
Proof.
  split; [reflexivity |].
  intros x Hx.
  destruct (lshift_count_max_pos x Hx) as (c & Hc & Hr & ->).
  unfold INT64_MAX in *.
  set (n := Z.min 31 (c - 1)).
  assert (Hn : 0 <= n <= 31) by (unfold n; lia).
  assert (Hpn : 0 < 2 ^ n) by (apply Z.pow_pos_nonneg; lia).
  split; [exact Hn |]. split.
  - assert (Hle : 2 ^ (64 - c + n) <= 2 ^ 63)
      by (apply Z.pow_le_mono_r; unfold n; lia).
    rewrite pow2_split in Hle by lia. nia.
  - intros Hn1.
    assert (En : n = c - 1) by (unfold n in *; lia).
    assert (E63 : 2 ^ 63 = 2 ^ (63 - c) * 2 ^ (n + 1)).
    { rewrite <- pow2_split by lia. f_equal. lia. }
    assert (Hpn1 : 0 < 2 ^ (n + 1)) by (apply Z.pow_pos_nonneg; lia).
    nia.
Qed.

Lemma lshift_count_max_correct_witness :
  0 < 2 ^ 40 <= INT64_MAX /\
  lshift_count_max (2 ^ 40) = 22 /\
  2 ^ 40 * 2 ^ 22 <= INT64_MAX /\
  INT64_MAX < 2 ^ 40 * 2 ^ (22 + 1).
Proof.
  assert (H : 0 < 2 ^ 40 <= INT64_MAX) by (unfold INT64_MAX; lia).
  assert (E : lshift_count_max (2 ^ 40) = 22) by reflexivity.
  destruct (proj2 lshift_count_max_correct (2 ^ 40) H) as (_ & Hfit & Hover).
  rewrite E in Hfit, Hover.
  split; [exact H |]. split; [exact E |]. split; [exact Hfit |].
  apply Hover. lia.
Defined.

(** ** The loops of the driver *)

(** With enough fuel the loop visits exactly the amounts from its start up to
    its bound. *)
Lemma for_amounts_In (fuel : nat) (b s n : Z) :
  b - s < Z.of_nat fuel ->
  In n (for_amounts fuel (fun m => m <=? b) s) <-> s <= n <= b.
Proof.
  revert s. induction fuel as [| fuel IH]; intros s Hf.
  - cbn. lia.
  - cbn [for_amounts]. destruct (Z.leb_spec s b) as [Hle | Hgt].
    + cbn [In]. rewrite IH by lia. lia.
    + cbn. lia.
Qed.

Lemma for_amounts_nil (fuel : nat) (b s : Z) :
  b < s -> for_amounts fuel (fun m => m <=? b) s = [].
Proof.
  intros H. destruct fuel as [| fuel]; [reflexivity |].
  cbn [for_amounts]. destruct (Z.leb_spec s b); [lia | reflexivity].
Qed.

Lemma lshift_amounts_In (x n : Z) :
  In n (lshift_amounts x) <-> 1 <= n <= lshift_count_max x.
Proof.
  unfold lshift_amounts. apply for_amounts_In.
  pose proof (lshift_count_max_le_31 x). lia.
Qed.

Lemma rshift_amounts_In (n : Z) :
  In n rshift_amounts <-> 1 <= n <= 31.
Proof. unfold rshift_amounts. apply for_amounts_In. lia. Qed.

(** C10: for a non-negative [x] the result of [lshift_count_max] lies in
    0..31; for a positive [x] it is 0 exactly when [x >= 2^62]; and for such
    an [x] the left-shift loop of [test] runs at no amount, so
    [check_lshift] is not called on it. *)
Theorem lshift_count_max_zero_sweep (x : Z) :
  0 <= x <= INT64_MAX ->
  0 <= lshift_count_max x <= 31 /\
  (0 < x -> (lshift_count_max x = 0 <-> 2 ^ 62 <= x)) /\
  (2 ^ 62 <= x ->
   lshift_amounts x = [] /\
   check_all check_lshift x (lshift_amounts x) = Some []).
Proof.
  intros Hx.
  assert (Hpos : 0 < x ->
    0 <= lshift_count_max x <= 31 /\ (lshift_count_max x = 0 <-> 2 ^ 62 <= x)).
  { intros H0.
    destruct (lshift_count_max_pos x (conj H0 (proj2 Hx))) as (c & Hc & Hr & ->).
    split; [lia |]. split.
    - intros E. assert (c = 1) by lia. subst c.
      change (63 - 1) with 62 in Hr. lia.
    - intros H62. destruct (Z.eq_dec c 1) as [-> | Hne]; [reflexivity |].
      assert (Hle : 2 ^ (64 - c) <= 2 ^ 62) by (apply Z.pow_le_mono_r; lia).
      lia. }
  split; [| split].
  - destruct (Z.eq_dec x 0) as [-> | Hnz]; [cbn; lia |].
    apply Hpos. lia.
  - intros H0. apply (Hpos H0).
  - intros H62.
    assert (E : lshift_amounts x = []).
    { unfold lshift_amounts. apply for_amounts_nil.
      assert (H0 : 0 < x) by lia.
      destruct (Hpos H0) as [_ [_ Hz]]. rewrite (Hz H62). lia. }
    split; [exact E | rewrite E; reflexivity].
Qed.

Lemma lshift_count_max_zero_sweep_witness :
  0 <= 2 ^ 62 <= INT64_MAX /\
  0 <= lshift_count_max (2 ^ 62) <= 31 /\
  (lshift_count_max (2 ^ 62) = 0 <-> 2 ^ 62 <= 2 ^ 62) /\
  lshift_amounts (2 ^ 62) = [] /\
  check_all check_lshift (2 ^ 62) (lshift_amounts (2 ^ 62)) = Some [].
Proof.
  assert (H : 0 <= 2 ^ 62 <= INT64_MAX) by (unfold INT64_MAX; lia).
  destruct (lshift_count_max_zero_sweep (2 ^ 62) H) as (Hr & Hz & He).
  split; [exact H |]. split; [exact Hr |].
  split; [apply Hz; lia | apply He; lia].
Defined.

(** ** Lane operations on their defined domain *)

Lemma amount_ok_true (w n : Z) : 0 <= n < w -> amount_ok w n = true.
Proof.
  intros H. unfold amount_ok.
  apply andb_true_intro. split; [apply Z.leb_le | apply Z.ltb_lt]; lia.
Qed.

Lemma amount_ok_false (w n : Z) : w <= n -> amount_ok w n = false.
Proof.
  intros H. unfold amount_ok.
  apply andb_false_intro2. apply Z.ltb_ge. lia.
Qed.

Lemma s32b_shl_defined (v n : Z) :
  0 <= n < 32 -> 0 <= v -> v * 2 ^ n <= INT32_MAX ->
  s32b_shl v n = Some (v * 2 ^ n).
Proof.
  intros Hn Hv Hfit. unfold s32b_shl.
  rewrite amount_ok_true by lia.
  replace (0 <=? v) with true by (symmetry; apply Z.leb_le; lia).
  replace (v * 2 ^ n <=? UINT32_MAX) with true
    by (symmetry; apply Z.leb_le; unfold UINT32_MAX, INT32_MAX in *; lia).
  cbn [andb]. rewrite Z.shiftl_mul_pow2 by lia.
  rewrite to_s32b_small; [reflexivity |].
  assert (0 < 2 ^ n) by (apply Z.pow_pos_nonneg; lia).
  unfold is_s32b, INT32_MIN, INT32_MAX in *. nia.
Qed.

Lemma s32b_shr_defined (v n : Z) :
  0 <= n < 32 -> s32b_shr v n = Some (v / 2 ^ n).
Proof.
  intros Hn. unfold s32b_shr. rewrite amount_ok_true by lia.
  rewrite Z.shiftr_div_pow2 by lia. reflexivity.
Qed.

Lemma u32b_shl_defined (v n : Z) :
  0 <= n < 32 -> u32b_shl v n = Some ((v * 2 ^ n) mod 2 ^ 32).
Proof.
  intros Hn. unfold u32b_shl. rewrite amount_ok_true by lia.
  rewrite Z.shiftl_mul_pow2 by lia. reflexivity.
Qed.

Lemma u32b_shr_defined (v n : Z) :
  0 <= n < 32 -> u32b_shr v n = Some (v / 2 ^ n).
Proof.
  intros Hn. unfold u32b_shr. rewrite amount_ok_true by lia.
  rewrite Z.shiftr_div_pow2 by lia. reflexivity.
Qed.

(** ** The guard is the only difference between the variants *)

Lemma s64b_lshift_nonzero (hi lo n : Z) :
  n <> 0 -> s64b_lshift hi lo n = s64b_LSHIFT_2 hi lo n.
Proof.
  intros Hn. unfold s64b_lshift.
  destruct (Z.eqb_spec n 0); [contradiction | reflexivity].
Qed.

Lemma s64b_rshift_nonzero (hi lo n : Z) :
  n <> 0 -> s64b_rshift hi lo n = s64b_RSHIFT_2 hi lo n.
Proof.
  intros Hn. unfold s64b_rshift.
  destruct (Z.eqb_spec n 0); [contradiction | reflexivity].
Qed.

Lemma f_lshift_nonzero (x n : Z) :
  n <> 0 -> f_lshift x n = f_lshift_macro x n.
Proof.
  intros Hn. unfold f_lshift, f_lshift_macro.
  destruct (unpack_s64b x) as [hi lo]. now apply s64b_lshift_nonzero.
Qed.

Lemma f_rshift_nonzero (x n : Z) :
  n <> 0 -> f_rshift x n = f_rshift_macro x n.
Proof.
  intros Hn. unfold f_rshift, f_rshift_macro.
  destruct (unpack_s64b x) as [hi lo]. now apply s64b_rshift_nonzero.
Qed.

(** ** What the lane expressions compute *)

Lemma pow2_32_split (n : Z) : 0 <= n <= 32 -> 2 ^ 32 = 2 ^ n * 2 ^ (32 - n).
Proof.
  intros Hn. rewrite <- pow2_split by lia. f_equal. lia.
Qed.

(** The left-shift macro on the lanes of a non-negative value [X] whose
    product with [2^n] fits: the lanes of [X * 2^n]. *)
Lemma s64b_LSHIFT_2_value (hi lo n : Z) :
  0 <= hi -> 0 <= lo < 2 ^ 32 -> 1 <= n <= 31 ->
  (hi * 2 ^ 32 + lo) * 2 ^ n <= INT64_MAX ->
  s64b_LSHIFT_2 hi lo n =
  Some (((hi * 2 ^ 32 + lo) * 2 ^ n) / 2 ^ 32,
        ((hi * 2 ^ 32 + lo) * 2 ^ n) mod 2 ^ 32).
Proof.
  unfold INT64_MAX. intros Hhi Hlo Hn Hfit.
  assert (Hpn : 0 < 2 ^ n) by (apply Z.pow_pos_nonneg; lia).
  assert (Hpm : 0 < 2 ^ (32 - n)) by (apply Z.pow_pos_nonneg; lia).
  pose proof (pow2_32_split n ltac:(lia)) as E32.
  assert (Ha : hi * 2 ^ n <= INT32_MAX) by (unfold INT32_MAX; nia).
  assert (Hb : 0 <= lo / 2 ^ (32 - n) < 2 ^ n).
  { split; [apply Z.div_pos; lia |].
    apply Z.div_lt_upper_bound; lia. }
  unfold s64b_LSHIFT_2.
  rewrite s32b_shl_defined by lia.
  rewrite u32b_shr_defined by lia.
  rewrite u32b_shl_defined by lia.
  cbn [ub_bind]. f_equal.
  assert (Ehi : ((hi * 2 ^ 32 + lo) * 2 ^ n) / 2 ^ 32
                = hi * 2 ^ n + lo / 2 ^ (32 - n)).
  { replace ((hi * 2 ^ 32 + lo) * 2 ^ n)
      with (hi * 2 ^ n * 2 ^ 32 + lo * 2 ^ n) by ring.
    rewrite Z.div_add_l by lia. f_equal.
    rewrite E32 at 1.
    rewrite (Z.mul_comm (2 ^ n) (2 ^ (32 - n))).
    apply Z.div_mul_cancel_r; lia. }
  f_equal.
  - rewrite Ehi.
    rewrite to_u32b_small by (unfold is_u32b, UINT32_MAX, INT32_MAX in *; nia).
    rewrite <- (Z.shiftl_mul_pow2 hi n) by lia.
    rewrite lor_shiftl_add by lia.
    rewrite !Z.shiftl_mul_pow2 by lia.
    apply to_s32b_small.
    unfold is_s32b, INT32_MIN, INT32_MAX in *.
    assert (hi * 2 ^ n + lo / 2 ^ (32 - n) < 2 ^ 31); [| nia].
    rewrite <- Ehi. apply Z.div_lt_upper_bound; lia.
  - replace ((hi * 2 ^ 32 + lo) * 2 ^ n)
      with (lo * 2 ^ n + hi * 2 ^ n * 2 ^ 32) by ring.
    rewrite Z.mod_add by lia. reflexivity.
Qed.

(** The right-shift macro on the lanes of any 64-bit value [X]: the lanes of
    the arithmetic shift [X / 2^n]. *)
Lemma s64b_RSHIFT_2_value (hi lo n : Z) :
  is_s32b hi -> 0 <= lo < 2 ^ 32 -> 1 <= n <= 31 ->
  s64b_RSHIFT_2 hi lo n =
  Some (((hi * 2 ^ 32 + lo) / 2 ^ n) / 2 ^ 32,
        ((hi * 2 ^ 32 + lo) / 2 ^ n) mod 2 ^ 32).
Proof.
  unfold is_s32b, INT32_MIN, INT32_MAX. intros Hhi Hlo Hn.
  assert (Hpn : 0 < 2 ^ n) by (apply Z.pow_pos_nonneg; lia).
  assert (Hpm : 0 < 2 ^ (32 - n)) by (apply Z.pow_pos_nonneg; lia).
  pose proof (pow2_32_split n ltac:(lia)) as E32.
  unfold s64b_RSHIFT_2.
  rewrite u32b_shl_defined by lia.
  rewrite u32b_shr_defined by lia.
  rewrite s32b_shr_defined by lia.
  cbn [ub_bind]. f_equal.
  assert (Ediv : (hi * 2 ^ 32 + lo) / 2 ^ n = hi * 2 ^ (32 - n) + lo / 2 ^ n).
  { replace (hi * 2 ^ 32 + lo) with (hi * 2 ^ (32 - n) * 2 ^ n + lo)
      by (rewrite E32; ring).
    apply Z.div_add_l. lia. }
  assert (Hq : 0 <= lo / 2 ^ n < 2 ^ (32 - n)).
  { split; [apply Z.div_pos; lia |].
    apply Z.div_lt_upper_bound; lia. }
  f_equal.
  - rewrite Z.div_div by lia. rewrite (Z.mul_comm (2 ^ n)).
    rewrite <- Z.div_div by lia.
    f_equal. replace (hi * 2 ^ 32 + lo) with (lo + hi * 2 ^ 32) by ring.
    rewrite Z.div_add by lia. rewrite Z.div_small by lia. reflexivity.
  - rewrite Ediv. unfold to_u32b, to_unsigned.
    rewrite Z.mul_mod_idemp_l by lia.
    pose proof (Z.div_mod hi (2 ^ n) ltac:(lia)) as Hdm.
    pose proof (Z.mod_pos_bound hi (2 ^ n) ltac:(lia)) as Hmb.
    assert (Em : (hi * 2 ^ (32 - n)) mod 2 ^ 32 = hi mod 2 ^ n * 2 ^ (32 - n)).
    { symmetry. apply Z.mod_unique with (q := hi / 2 ^ n); nia. }
    rewrite Em.
    rewrite <- (Z.shiftl_mul_pow2 (hi mod 2 ^ n) (32 - n)) by lia.
    rewrite lor_shiftl_add by lia.
    rewrite ?Z.shiftl_mul_pow2 by lia.
    apply Z.mod_unique with (q := hi / 2 ^ n); nia.
Qed.

(** ** What the four entry points return *)

Lemma div_mod_lanes (x : Z) : x / 2 ^ 32 * 2 ^ 32 + x mod 2 ^ 32 = x.
Proof. symmetry. rewrite Z.mul_comm. apply Z.div_mod. lia. Qed.

Lemma f_lshift_macro_value (x n : Z) :
  0 <= x <= INT64_MAX -> 1 <= n <= 31 -> x * 2 ^ n <= INT64_MAX ->
  f_lshift_macro x n = Some (unpack_s64b (x * 2 ^ n)).
Proof.
  unfold INT64_MAX. intros Hx Hn Hfit.
  assert (Hpn : 0 < 2 ^ n) by (apply Z.pow_pos_nonneg; lia).
  unfold f_lshift_macro.
  rewrite (unpack_s64b_value x)
    by (unfold is_s64b, INT64_MIN, INT64_MAX; lia).
  rewrite (unpack_s64b_value (x * 2 ^ n))
    by (unfold is_s64b, INT64_MIN, INT64_MAX; nia).
  pose proof (Z.mod_pos_bound x (2 ^ 32) ltac:(lia)) as Hlo.
  rewrite s64b_LSHIFT_2_value.
  - rewrite div_mod_lanes. reflexivity.
  - apply Z.div_pos; lia.
  - exact Hlo.
  - exact Hn.
  - rewrite div_mod_lanes. exact Hfit.
Qed.

Lemma f_lshift_value (x n : Z) :
  0 <= x <= INT64_MAX -> 1 <= n <= 31 -> x * 2 ^ n <= INT64_MAX ->
  f_lshift x n = Some (unpack_s64b (x * 2 ^ n)).
Proof.
  intros Hx Hn Hfit. rewrite f_lshift_nonzero by lia.
  now apply f_lshift_macro_value.
Qed.

Lemma shiftr_is_s64b (x n : Z) : is_s64b x -> 0 <= n -> is_s64b (x / 2 ^ n).
Proof.
  unfold is_s64b, INT64_MIN, INT64_MAX. intros Hx Hn.
  assert (Hpn : 0 < 2 ^ n) by (apply Z.pow_pos_nonneg; lia).
  split.
  - apply Z.div_le_lower_bound; nia.
  - assert (x / 2 ^ n < 2 ^ 63); [| lia].
    apply Z.div_lt_upper_bound; nia.
Qed.

Lemma f_rshift_macro_value (x n : Z) :
  is_s64b x -> 1 <= n <= 31 ->
  f_rshift_macro x n = Some (unpack_s64b (x / 2 ^ n)).
Proof.
  intros Hx Hn.
  unfold f_rshift_macro.
  destruct (unpack_s64b_lanes x Hx) as [Hhi Hlo].
  rewrite (unpack_s64b_value x) in * by assumption.
  rewrite (unpack_s64b_value (x / 2 ^ n)) by (apply shiftr_is_s64b; [assumption | lia]).
  cbn [fst snd] in Hhi, Hlo.
  rewrite s64b_RSHIFT_2_value.
  - rewrite div_mod_lanes. reflexivity.
  - exact Hhi.
  - unfold is_u32b, UINT32_MAX in Hlo. lia.
  - exact Hn.
Qed.

Lemma f_rshift_value (x n : Z) :
  is_s64b x -> 1 <= n <= 31 ->
  f_rshift x n = Some (unpack_s64b (x / 2 ^ n)).
Proof.
  intros Hx Hn. rewrite f_rshift_nonzero by lia.
  now apply f_rshift_macro_value.
Qed.

(** Every amount the left-shift loop visits keeps the product in range. *)
Lemma lshift_count_max_no_overflow (x n : Z) :
  0 <= x <= INT64_MAX -> 0 <= n <= lshift_count_max x ->
  x * 2 ^ n <= INT64_MAX.
Proof.
  intros Hx Hn.
  destruct (Z.eq_dec x 0) as [-> | Hnz]; [unfold INT64_MAX; lia |].
  destruct (lshift_count_max_pos x ltac:(lia)) as (c & Hc & Hr & E).
  rewrite E in Hn. unfold INT64_MAX in *.
  assert (Hpn : 0 < 2 ^ n) by (apply Z.pow_pos_nonneg; lia).
  assert (Hle : 2 ^ (64 - c + n) <= 2 ^ 63) by (apply Z.pow_le_mono_r; lia).
  rewrite pow2_split in Hle by lia. nia.
Qed.

(** ** Agreement of the guarded and the macro variants *)

(** C1: for a non-negative 64-bit [x] and an amount [n] with
    [1 <= n <= lshift_count_max x], [f_lshift x n] and [f_lshift_macro x n]
    both return, and return the same (high, low) pair. *)
Theorem f_lshift_equiv_macro (x n : Z) :
  0 <= x <= INT64_MAX -> 1 <= n <= lshift_count_max x ->
  exists p : HalfPair, f_lshift x n = Some p /\ f_lshift_macro x n = Some p.
Proof.
  intros Hx Hn.
  pose proof (lshift_count_max_le_31 x) as H31.
  pose proof (lshift_count_max_no_overflow x n Hx ltac:(lia)) as Hfit.
  exists (unpack_s64b (x * 2 ^ n)). split.
  - apply f_lshift_value; [exact Hx | lia | exact Hfit].
  - apply f_lshift_macro_value; [exact Hx | lia | exact Hfit].
Qed.

Lemma f_lshift_equiv_macro_witness :
  0 <= 12345678901 <= INT64_MAX /\ 1 <= 7 <= lshift_count_max 12345678901 /\
  exists p : HalfPair,
    f_lshift 12345678901 7 = Some p /\ f_lshift_macro 12345678901 7 = Some p.
Proof.
  assert (Hx : 0 <= 12345678901 <= INT64_MAX) by (unfold INT64_MAX; lia).
  assert (Hn : 1 <= 7 <= lshift_count_max 12345678901) by (vm_compute; split; discriminate).
  split; [exact Hx |]. split; [exact Hn |].
  exact (f_lshift_equiv_macro 12345678901 7 Hx Hn).
Defined.

(** C2: for a non-negative 64-bit [x] and an amount [n] in 1..31,
    [f_rshift x n] and [f_rshift_macro x n] both return, and return the same
    (high, low) pair. *)
Theorem f_rshift_equiv_macro (x n : Z) :
  0 <= x <= INT64_MAX -> 1 <= n <= 31 ->
  exists p : HalfPair, f_rshift x n = Some p /\ f_rshift_macro x n = Some p.
Proof.
  intros Hx Hn.
  assert (Hs : is_s64b x) by (unfold is_s64b, INT64_MIN, INT64_MAX in *; lia).
  exists (unpack_s64b (x / 2 ^ n)). split.
  - now apply f_rshift_value.
  - now apply f_rshift_macro_value.
Qed.

Lemma f_rshift_equiv_macro_witness :
  0 <= 2 ^ 40 + 5 <= INT64_MAX /\ 1 <= 9 <= 31 /\
  exists p : HalfPair,
    f_rshift (2 ^ 40 + 5) 9 = Some p /\ f_rshift_macro (2 ^ 40 + 5) 9 = Some p.
Proof.
  assert (Hx : 0 <= 2 ^ 40 + 5 <= INT64_MAX) by (unfold INT64_MAX; lia).
  assert (Hn : 1 <= 9 <= 31) by lia.
  split; [exact Hx |]. split; [exact Hn |].
  exact (f_rshift_equiv_macro (2 ^ 40 + 5) 9 Hx Hn).
Defined.

(** C9: on the whole signed 64-bit range, negative values included, and for
    every amount [n] in 1..31, [f_rshift x n] and [f_rshift_macro x n] return
    the same pair, and that pair is made of the lane expressions
    [((u32b)hi << (32 - n)) | (lo >> n)] and [hi >> n] over the lanes of
    [x]. *)
Theorem f_rshift_signed_equiv_macro (x n : Z) :
  is_s64b x -> 1 <= n <= 31 ->
  let hi := fst (unpack_s64b x) in
  let lo := snd (unpack_s64b x) in
  let p := (Z.shiftr hi n,
            Z.lor (to_u32b (Z.shiftl (to_u32b hi) (32 - n))) (Z.shiftr lo n)) in
  f_rshift x n = Some p /\ f_rshift_macro x n = Some p.
Proof.
  intros Hx Hn hi lo p.
  rewrite f_rshift_nonzero by lia.
  assert (E : f_rshift_macro x n = Some p); [| split; exact E].
  unfold f_rshift_macro, p, hi, lo.
  destruct (unpack_s64b x) as [h l]. cbn [fst snd].
  unfold s64b_RSHIFT_2, u32b_shl, u32b_shr, s32b_shr.
  rewrite !amount_ok_true by lia. reflexivity.
Qed.

Lemma f_rshift_signed_equiv_macro_witness :
  is_s64b (-5) /\ 1 <= 1 <= 31 /\
  f_rshift (-5) 1 = Some (-1, 4294967293) /\
  f_rshift_macro (-5) 1 = Some (-1, 4294967293).
Proof.
  assert (Hx : is_s64b (-5)) by (unfold is_s64b, INT64_MIN, INT64_MAX; lia).
  assert (Hn : 1 <= 1 <= 31) by lia.
  split; [exact Hx |]. split; [exact Hn |].
  exact (f_rshift_signed_equiv_macro (-5) 1 Hx Hn).
Defined.

(** ** The shifts against 64-bit arithmetic *)

(** C3: for a non-negative 64-bit [x] and an amount [n] with
    [1 <= n <= lshift_count_max x], [f_lshift x n] returns the lanes of
    [x * 2^n]: a signed 32-bit high lane and an unsigned 32-bit low lane
    that join to [x * 2^n]. *)
Theorem join_f_lshift (x n : Z) :
  0 <= x <= INT64_MAX -> 1 <= n <= lshift_count_max x ->
  exists p : HalfPair,
    f_lshift x n = Some p /\ p = unpack_s64b (x * 2 ^ n) /\
    is_s32b (fst p) /\ is_u32b (snd p) /\ join p = x * 2 ^ n.
Proof.
  intros Hx Hn.
  pose proof (lshift_count_max_le_31 x) as H31.
  pose proof (lshift_count_max_no_overflow x n Hx ltac:(lia)) as Hfit.
  assert (Hs : is_s64b (x * 2 ^ n)).
  { assert (0 < 2 ^ n) by (apply Z.pow_pos_nonneg; lia).
    unfold is_s64b, INT64_MIN, INT64_MAX in *. nia. }
  destruct (unpack_s64b_lanes _ Hs) as [Hhi Hlo].
  exists (unpack_s64b (x * 2 ^ n)).
  split; [apply f_lshift_value; [exact Hx | lia | exact Hfit] |].
  split; [reflexivity |]. split; [exact Hhi |]. split; [exact Hlo |].
  exact (join_unpack_inverse _ Hs).
Qed.

Lemma join_f_lshift_witness :
  0 <= 1 <= INT64_MAX /\ 1 <= 31 <= lshift_count_max 1 /\
  exists p : HalfPair,
    f_lshift 1 31 = Some p /\ p = unpack_s64b (1 * 2 ^ 31) /\
    is_s32b (fst p) /\ is_u32b (snd p) /\ join p = 1 * 2 ^ 31.
Proof.
  assert (Hx : 0 <= 1 <= INT64_MAX) by (unfold INT64_MAX; lia).
  assert (Hn : 1 <= 31 <= lshift_count_max 1) by (vm_compute; split; discriminate).
  split; [exact Hx |]. split; [exact Hn |].
  exact (join_f_lshift 1 31 Hx Hn).
Defined.

(** C4: for a non-negative 64-bit [x] and an amount [n] in 1..31,
    [f_rshift x n] returns the lanes of the integer quotient [x / 2^n]: a
    signed 32-bit high lane and an unsigned 32-bit low lane that join to
    [x / 2^n]. *)
Theorem join_f_rshift (x n : Z) :
  0 <= x <= INT64_MAX -> 1 <= n <= 31 ->
  exists p : HalfPair,
    f_rshift x n = Some p /\ p = unpack_s64b (x / 2 ^ n) /\
    is_s32b (fst p) /\ is_u32b (snd p) /\ join p = x / 2 ^ n.
Proof.
  intros Hx Hn.
  assert (Hs : is_s64b x) by (unfold is_s64b, INT64_MIN, INT64_MAX in *; lia).
  assert (Hq : is_s64b (x / 2 ^ n)) by (apply shiftr_is_s64b; [exact Hs | lia]).
  destruct (unpack_s64b_lanes _ Hq) as [Hhi Hlo].
  exists (unpack_s64b (x / 2 ^ n)).
  split; [now apply f_rshift_value |].
  split; [reflexivity |]. split; [exact Hhi |]. split; [exact Hlo |].
  exact (join_unpack_inverse _ Hq).
Qed.

Lemma join_f_rshift_witness :
  0 <= 2 ^ 40 <= INT64_MAX /\ 1 <= 1 <= 31 /\
  exists p : HalfPair,
    f_rshift (2 ^ 40) 1 = Some p /\ p = unpack_s64b (2 ^ 40 / 2 ^ 1) /\
    is_s32b (fst p) /\ is_u32b (snd p) /\ join p = 2 ^ 40 / 2 ^ 1.
Proof.
  assert (Hx : 0 <= 2 ^ 40 <= INT64_MAX) by (unfold INT64_MAX; lia).
  assert (Hn : 1 <= 1 <= 31) by lia.
  split; [exact Hx |]. split; [exact Hn |].
  exact (join_f_rshift (2 ^ 40) 1 Hx Hn).
Defined.

(** ** The amount 0 and the value 0 *)

Lemma s64b_lshift_zero (hi lo : Z) : s64b_lshift hi lo 0 = Some (hi, lo).
Proof. reflexivity. Qed.

Lemma s64b_rshift_zero (hi lo : Z) : s64b_rshift hi lo 0 = Some (hi, lo).
Proof. reflexivity. Qed.

(** Without the guard the amount 0 is undefined: the left-shift macro
    evaluates [V2 >> 32] and the right-shift macro [(u32b)V1 << 32]. *)
Lemma s64b_LSHIFT_2_zero_undefined (V1 V2 : Z) : s64b_LSHIFT_2 V1 V2 0 = None.
Proof.
  unfold s64b_LSHIFT_2. destruct (s32b_shl V1 0); reflexivity.
Qed.

Lemma s64b_RSHIFT_2_zero_undefined (V1 V2 : Z) : s64b_RSHIFT_2 V1 V2 0 = None.
Proof. reflexivity. Qed.

(** C7: for a non-negative 64-bit [x], [f_lshift x 0] and [f_rshift x 0]
    return the pair [unpack_s64b x] unchanged; the guard returns before any
    lane is shifted. *)
Theorem f_shift_by_zero (x : Z) :
  0 <= x <= INT64_MAX ->
  f_lshift x 0 = Some (unpack_s64b x) /\ f_rshift x 0 = Some (unpack_s64b x).
Proof.
  intros _. unfold f_lshift, f_rshift.
  destruct (unpack_s64b x) as [hi lo].
  split; [apply s64b_lshift_zero | apply s64b_rshift_zero].
Qed.

Lemma f_shift_by_zero_witness :
  0 <= INT64_MAX <= INT64_MAX /\
  f_lshift INT64_MAX 0 = Some (unpack_s64b INT64_MAX) /\
  f_rshift INT64_MAX 0 = Some (unpack_s64b INT64_MAX).
Proof.
  assert (Hx : 0 <= INT64_MAX <= INT64_MAX) by (unfold INT64_MAX; lia).
  split; [exact Hx | exact (f_shift_by_zero INT64_MAX Hx)].
Defined.

Lemma unpack_s64b_0 : unpack_s64b 0 = (0, 0).
Proof. reflexivity. Qed.

(** C8: for every amount [n] in 1..31, the four variants applied to the
    value 0 return the pair (0, 0). *)
Theorem shift_of_zero (n : Z) :
  1 <= n <= 31 ->
  f_lshift 0 n = Some (0, 0) /\ f_lshift_macro 0 n = Some (0, 0) /\
  f_rshift 0 n = Some (0, 0) /\ f_rshift_macro 0 n = Some (0, 0).
Proof.
  intros Hn.
  assert (H0 : 0 <= 0 <= INT64_MAX) by (unfold INT64_MAX; lia).
  assert (Hs : is_s64b 0) by (unfold is_s64b, INT64_MIN, INT64_MAX; lia).
  assert (Hfit : 0 * 2 ^ n <= INT64_MAX) by (unfold INT64_MAX; lia).
  rewrite <- unpack_s64b_0.
  repeat split.
  - rewrite (f_lshift_value 0 n H0 Hn Hfit). reflexivity.
  - rewrite (f_lshift_macro_value 0 n H0 Hn Hfit). reflexivity.
  - rewrite (f_rshift_value 0 n Hs Hn). reflexivity.
  - rewrite (f_rshift_macro_value 0 n Hs Hn). reflexivity.
Qed.

Lemma shift_of_zero_witness :
  1 <= 31 <= 31 /\
  f_lshift 0 31 = Some (0, 0) /\ f_lshift_macro 0 31 = Some (0, 0) /\
  f_rshift 0 31 = Some (0, 0) /\ f_rshift_macro 0 31 = Some (0, 0).
Proof.
  assert (Hn : 1 <= 31 <= 31) by lia.
  split; [exact Hn | exact (shift_of_zero 31 Hn)].
Defined.

(** ** The checker and the driver report nothing *)

Lemma HalfPair_eqb_refl (p : HalfPair) : HalfPair_eqb p p = true.
Proof. unfold HalfPair_eqb. now rewrite !Z.eqb_refl. Qed.

Lemma check_lshift_silent (x n : Z) :
  0 <= x <= INT64_MAX -> 1 <= n <= lshift_count_max x ->
  check_lshift x n = Some [].
Proof.
  intros Hx Hn.
  pose proof (lshift_count_max_le_31 x) as H31.
  pose proof (lshift_count_max_no_overflow x n Hx ltac:(lia)) as Hfit.
  unfold check_lshift.
  rewrite f_lshift_value, f_lshift_macro_value by (assumption || lia).
  cbn [ub_bind]. now rewrite HalfPair_eqb_refl.
Qed.

Lemma check_rshift_silent (x n : Z) :
  is_s64b x -> 1 <= n <= 31 -> check_rshift x n = Some [].
Proof.
  intros Hx Hn. unfold check_rshift.
  rewrite f_rshift_value, f_rshift_macro_value by assumption.
  cbn [ub_bind]. now rewrite HalfPair_eqb_refl.
Qed.

Lemma check_all_silent (check : Z -> Z -> option (list report)) (x : Z)
  (ns : list Z) :
  (forall n, In n ns -> check x n = Some []) -> check_all check x ns = Some [].
Proof.
  induction ns as [| n ns IH]; intros H; [reflexivity |].
  cbn [check_all]. rewrite (H n (or_introl eq_refl)). cbn [ub_bind].
  rewrite IH by (intros m Hm; apply H; now right). reflexivity.
Qed.

(** The body of [test] returns, passes both assertions and reports no
    mismatch, for every value the two distributions can draw. *)
Lemma test_body_silent (x : Z) :
  0 <= x <= INT64_MAX -> test_body x = Some [].
Proof.
  intros Hx.
  assert (Hs : is_s64b x) by (unfold is_s64b, INT64_MIN, INT64_MAX in *; lia).
  unfold test_body, shift0_asserts, f_lshift, f_rshift.
  destruct (unpack_s64b x) as [hi lo] eqn:E.
  rewrite s64b_lshift_zero, s64b_rshift_zero.
  cbn [HalfPair_result_eqb]. rewrite HalfPair_eqb_refl. cbn [andb].
  rewrite (check_all_silent check_lshift x (lshift_amounts x)).
  - rewrite (check_all_silent check_rshift x rshift_amounts).
    + reflexivity.
    + intros n Hn. apply check_rshift_silent; [exact Hs |].
      now apply rshift_amounts_In.
  - intros n Hn. apply check_lshift_silent; [exact Hx |].
    now apply lshift_amounts_In.
Qed.

Lemma main_probes_silent : main_probes = Some [].
Proof. reflexivity. Qed.

(** ** Concrete scenarios *)

Example f_lshift_1_31 : f_lshift 1 31 = Some (0, 2 ^ 31).
Proof. reflexivity. Qed.

Example f_rshift_pow40_1 :
  f_rshift (2 ^ 40) 1 = Some (unpack_s64b (2 ^ 39)) /\
  f_rshift_macro (2 ^ 40) 1 = Some (unpack_s64b (2 ^ 39)).
Proof. split; reflexivity. Qed.

(** Past the bound of the left-shift loop: [2^61 << 2] still fits the
    unsigned lanes and wraps into the sign bit, [2^62 << 2] does not fit and
    is undefined for both variants. *)
Example f_lshift_past_bound :
  f_lshift (2 ^ 61) 2 = Some (- 2 ^ 31, 0) /\
  f_lshift_macro (2 ^ 61) 2 = Some (- 2 ^ 31, 0) /\
  f_lshift (2 ^ 62) 2 = None /\ f_lshift_macro (2 ^ 62) 2 = None.
Proof. repeat split. Qed.

Example lshift_count_max_examples :
  lshift_count_max 1 = 31 /\ lshift_count_max (2 ^ 31) = 31 /\
  lshift_count_max (2 ^ 32) = 30 /\ lshift_count_max (2 ^ 62) = 0 /\
  lshift_count_max INT64_MAX = 0.
Proof. repeat split. Qed.

(** * Further properties of the code *)

(** ** The lanes of a value *)

(** X1: on the signed 64-bit range [unpack_s64b x] is the pair of the floor
    quotient and the remainder of [x] by [2^32]; the high lane is a signed
    and the low lane an unsigned 32-bit value. *)
Theorem unpack_s64b_div_mod (x : Z) :
  is_s64b x ->
  unpack_s64b x = (x / 2 ^ 32, x mod 2 ^ 32) /\
  is_s32b (x / 2 ^ 32) /\ is_u32b (x mod 2 ^ 32).
Proof.
  intros Hx. pose proof (unpack_s64b_lanes x Hx) as Hl.
  rewrite unpack_s64b_value in Hl by assumption.
  split; [now apply unpack_s64b_value | exact Hl].
Qed.

Lemma unpack_s64b_div_mod_witness :
  is_s64b (-1) /\ unpack_s64b (-1) = (-1, 2 ^ 32 - 1).
Proof.
  assert (Hx : is_s64b (-1)) by (unfold is_s64b, INT64_MIN, INT64_MAX; lia).
  split; [exact Hx | exact (proj1 (unpack_s64b_div_mod (-1) Hx))].
Defined.

(** X2: two different 64-bit values never unpack to the same pair. *)
Theorem unpack_s64b_injective (x y : Z) :
  is_s64b x -> is_s64b y -> unpack_s64b x = unpack_s64b y -> x = y.
Proof.
  intros Hx Hy E.
  rewrite !unpack_s64b_value in E by assumption.
  pose proof (f_equal fst E) as Eq. pose proof (f_equal snd E) as Er.
  cbn [fst snd] in Eq, Er.
  pose proof (div_mod_lanes x) as Ex. pose proof (div_mod_lanes y) as Ey.
  congruence.
Qed.

Lemma unpack_s64b_injective_witness :
  is_s64b 7 /\ is_s64b (3 + 4) /\ unpack_s64b 7 = unpack_s64b (3 + 4) /\
  7 = 3 + 4.
Proof.
  assert (Hx : is_s64b 7) by (unfold is_s64b, INT64_MIN, INT64_MAX; lia).
  assert (Hy : is_s64b (3 + 4)) by (unfold is_s64b, INT64_MIN, INT64_MAX; lia).
  assert (E : unpack_s64b 7 = unpack_s64b (3 + 4)) by reflexivity.
  split; [exact Hx |]. split; [exact Hy |]. split; [exact E |].
  exact (unpack_s64b_injective 7 (3 + 4) Hx Hy E).
Defined.

Lemma unpack_s64b_hi_sign (x : Z) :
  is_s64b x -> (fst (unpack_s64b x) < 0 <-> x < 0).
Proof.
  intros Hx. rewrite unpack_s64b_value by assumption. cbn [fst].
  pose proof (div_mod_lanes x) as E.
  pose proof (Z.mod_pos_bound x (2 ^ 32) ltac:(lia)) as Hm.
  lia.
Qed.

(** X3: the high lane carries the sign: it is negative exactly when the
    value is. *)
Theorem unpack_s64b_sign (x : Z) :
  is_s64b x -> (fst (unpack_s64b x) < 0 <-> x < 0).
Proof. exact (unpack_s64b_hi_sign x). Qed.

Lemma unpack_s64b_sign_witness :
  is_s64b INT64_MIN /\ fst (unpack_s64b INT64_MIN) < 0.
Proof.
  assert (Hx : is_s64b INT64_MIN) by (unfold is_s64b, INT64_MIN, INT64_MAX; lia).
  split; [exact Hx |].
  apply (proj2 (unpack_s64b_sign INT64_MIN Hx)). unfold INT64_MIN. lia.
Defined.

(** ** Where the shifts are defined *)

Lemma s32b_shl_inv (v n a : Z) :
  s32b_shl v n = Some a ->
  0 <= n < 32 /\ 0 <= v /\ v * 2 ^ n <= UINT32_MAX /\ a = to_s32b (v * 2 ^ n).
Proof.
  unfold s32b_shl, amount_ok. intros H.
  destruct (0 <=? n) eqn:H0; [| discriminate H].
  destruct (n <? 32) eqn:H1; [| discriminate H].
  destruct (0 <=? v) eqn:H2; [| discriminate H].
  destruct (v * 2 ^ n <=? UINT32_MAX) eqn:H3; [| discriminate H].
  cbn [andb] in H. apply Z.leb_le in H0, H2, H3. apply Z.ltb_lt in H1.
  rewrite Z.shiftl_mul_pow2 in H by lia.
  repeat split; try lia. congruence.
Qed.

Lemma s32b_shl_wraps (v n : Z) :
  0 <= n < 32 -> 0 <= v -> v * 2 ^ n <= UINT32_MAX ->
  s32b_shl v n = Some (to_s32b (v * 2 ^ n)).
Proof.
  intros Hn Hv Hfit. unfold s32b_shl.
  rewrite amount_ok_true by lia.
  replace (0 <=? v) with true by (symmetry; apply Z.leb_le; lia).
  replace (v * 2 ^ n <=? UINT32_MAX) with true
    by (symmetry; apply Z.leb_le; lia).
  cbn [andb]. rewrite Z.shiftl_mul_pow2 by lia. reflexivity.
Qed.

Lemma to_u32b_to_s32b (v : Z) : to_u32b (to_s32b v) = to_u32b v.
Proof.
  unfold to_u32b, to_s32b, to_signed, to_unsigned.
  destruct (v mod 2 ^ 32 <? 2 ^ (32 - 1)).
  - apply Z.mod_mod. lia.
  - replace (v mod 2 ^ 32 - 2 ^ 32) with (v mod 2 ^ 32 + (-1) * 2 ^ 32) by ring.
    rewrite Z.mod_add by lia. apply Z.mod_mod. lia.
Qed.

(** The lanes of a 64-bit pattern read as a signed value. *)
Lemma to_s64b_lanes (y : Z) :
  0 <= y < 2 ^ 64 ->
  is_s64b (to_s64b y) /\
  to_s64b y / 2 ^ 32 = to_s32b (y / 2 ^ 32) /\
  to_s64b y mod 2 ^ 32 = y mod 2 ^ 32.
Proof.
  intros Hy.
  pose proof (Z.div_mod y (2 ^ 32) ltac:(lia)) as Hdm.
  pose proof (Z.mod_pos_bound y (2 ^ 32) ltac:(lia)) as Hmb.
  unfold to_s64b, to_signed, to_unsigned.
  rewrite (Z.mod_small y (2 ^ 64)) by lia. change (64 - 1) with 63.
  destruct (Z.ltb_spec y (2 ^ 63)) as [Hlow | Hhigh].
  - split; [unfold is_s64b, INT64_MIN, INT64_MAX; lia |].
    split; [| reflexivity].
    symmetry. apply to_s32b_small.
    unfold is_s32b, INT32_MIN, INT32_MAX. lia.
  - split; [unfold is_s64b, INT64_MIN, INT64_MAX; lia |].
    replace (y - 2 ^ 64) with (y + (- 2 ^ 32) * 2 ^ 32) by ring.
    rewrite Z.div_add, Z.mod_add by lia.
    split; [| reflexivity].
    unfold to_s32b, to_signed, to_unsigned.
    rewrite (Z.mod_small (y / 2 ^ 32)) by lia. change (32 - 1) with 31.
    destruct (Z.ltb_spec (y / 2 ^ 32) (2 ^ 31)); lia.
Qed.

(** The left-shift macro on the lanes of a non-negative value [X] whose
    product with [2^n] fits 64 unsigned bits: the lanes of the product read
    as a signed 64-bit value. *)
Lemma s64b_LSHIFT_2_wrapped (hi lo n : Z) :
  0 <= hi -> 0 <= lo < 2 ^ 32 -> 1 <= n <= 31 ->
  (hi * 2 ^ 32 + lo) * 2 ^ n <= UINT64_MAX ->
  s64b_LSHIFT_2 hi lo n =
  Some (to_s32b (((hi * 2 ^ 32 + lo) * 2 ^ n) / 2 ^ 32),
        ((hi * 2 ^ 32 + lo) * 2 ^ n) mod 2 ^ 32).
Proof.
  unfold UINT64_MAX. intros Hhi Hlo Hn Hfit.
  assert (Hpn : 0 < 2 ^ n) by (apply Z.pow_pos_nonneg; lia).
  assert (Hpm : 0 < 2 ^ (32 - n)) by (apply Z.pow_pos_nonneg; lia).
  pose proof (pow2_32_split n ltac:(lia)) as E32.
  assert (Ha : hi * 2 ^ n <= UINT32_MAX) by (unfold UINT32_MAX; nia).
  assert (Hb : 0 <= lo / 2 ^ (32 - n) < 2 ^ n).
  { split; [apply Z.div_pos; lia |].
    apply Z.div_lt_upper_bound; lia. }
  unfold s64b_LSHIFT_2.
  rewrite s32b_shl_wraps by lia.
  rewrite u32b_shr_defined by lia.
  rewrite u32b_shl_defined by lia.
  cbn [ub_bind]. f_equal.
  assert (Ehi : ((hi * 2 ^ 32 + lo) * 2 ^ n) / 2 ^ 32
                = hi * 2 ^ n + lo / 2 ^ (32 - n)).
  { replace ((hi * 2 ^ 32 + lo) * 2 ^ n)
      with (hi * 2 ^ n * 2 ^ 32 + lo * 2 ^ n) by ring.
    rewrite Z.div_add_l by lia. f_equal.
    rewrite E32 at 1.
    rewrite (Z.mul_comm (2 ^ n) (2 ^ (32 - n))).
    apply Z.div_mul_cancel_r; lia. }
  f_equal.
  - rewrite Ehi. rewrite to_u32b_to_s32b.
    rewrite to_u32b_small by (unfold is_u32b, UINT32_MAX in *; nia).
    rewrite <- (Z.shiftl_mul_pow2 hi n) by lia.
    rewrite lor_shiftl_add by lia.
    rewrite !Z.shiftl_mul_pow2 by lia. reflexivity.
  - replace ((hi * 2 ^ 32 + lo) * 2 ^ n)
      with (lo * 2 ^ n + hi * 2 ^ n * 2 ^ 32) by ring.
    rewrite Z.mod_add by lia. reflexivity.
Qed.

Lemma f_lshift_macro_wrapped (x n : Z) :
  0 <= x <= INT64_MAX -> 1 <= n <= 31 -> x * 2 ^ n <= UINT64_MAX ->
  f_lshift_macro x n = Some (unpack_s64b (to_s64b (x * 2 ^ n))).
Proof.
  intros Hx Hn Hfit.
  assert (Hpn : 0 < 2 ^ n) by (apply Z.pow_pos_nonneg; lia).
  assert (Hy : 0 <= x * 2 ^ n < 2 ^ 64) by (unfold UINT64_MAX in Hfit; nia).
  destruct (to_s64b_lanes (x * 2 ^ n) Hy) as (Hs & Eq & Er).
  unfold f_lshift_macro.
  rewrite (unpack_s64b_value x)
    by (unfold is_s64b, INT64_MIN, INT64_MAX in *; lia).
  rewrite (unpack_s64b_value (to_s64b (x * 2 ^ n))) by exact Hs.
  rewrite Eq, Er.
  pose proof (Z.mod_pos_bound x (2 ^ 32) ltac:(lia)) as Hlo.
  rewrite s64b_LSHIFT_2_wrapped.
  - rewrite div_mod_lanes. reflexivity.
  - apply Z.div_pos; lia.
  - exact Hlo.
  - exact Hn.
  - rewrite div_mod_lanes. exact Hfit.
Qed.

Lemma f_lshift_macro_defined_inv (x n : Z) (p : HalfPair) :
  is_s64b x -> 1 <= n <= 31 -> f_lshift_macro x n = Some p ->
  0 <= x /\ x * 2 ^ n <= UINT64_MAX.
Proof.
  intros Hx Hn. unfold f_lshift_macro.
  pose proof (unpack_s64b_hi_sign x Hx) as Hsign.
  rewrite unpack_s64b_value in * by assumption. cbn [fst] in Hsign.
  unfold s64b_LSHIFT_2.
  destruct (s32b_shl (x / 2 ^ 32) n) as [a |] eqn:Ea; [| discriminate].
  intros _.
  destruct (s32b_shl_inv _ _ _ Ea) as (_ & Hhi & Hfit & _).
  split; [lia |].
  unfold UINT32_MAX in Hfit. unfold UINT64_MAX.
  pose proof (div_mod_lanes x) as E.
  pose proof (Z.mod_pos_bound x (2 ^ 32) ltac:(lia)) as Hm.
  assert (Hpn : 0 < 2 ^ n) by (apply Z.pow_pos_nonneg; lia).
  pose proof (pow2_32_split n ltac:(lia)) as E32.
  assert (Hlt : x / 2 ^ 32 < 2 ^ (32 - n)).
  { apply (Z.mul_lt_mono_pos_r (2 ^ n)); lia. }
  assert (Hle : (x / 2 ^ 32 + 1) * 2 ^ n <= 2 ^ 32) by nia.
  nia.
Qed.

(** X4: for a 64-bit [x] and an amount in 1..31, the two left-shift variants
    are defined exactly when [x] is non-negative and [x * 2^n] fits 64
    unsigned bits, which is when C++17 defines the 64-bit shift [x << n]
    itself; they then return the lanes of that product read as a signed
    64-bit value, so past [lshift_count_max x] the result wraps into the
    sign bit. *)
Theorem f_lshift_defined_iff (x n : Z) :
  is_s64b x -> 1 <= n <= 31 ->
  (f_lshift x n <> None <-> 0 <= x /\ x * 2 ^ n <= UINT64_MAX) /\
  (f_lshift_macro x n <> None <-> 0 <= x /\ x * 2 ^ n <= UINT64_MAX) /\
  (0 <= x -> x * 2 ^ n <= UINT64_MAX ->
   f_lshift x n = Some (unpack_s64b (to_s64b (x * 2 ^ n))) /\
   f_lshift_macro x n = Some (unpack_s64b (to_s64b (x * 2 ^ n)))).
Proof.
  intros Hx Hn. rewrite f_lshift_nonzero by lia.
  assert (Hv : 0 <= x -> x * 2 ^ n <= UINT64_MAX ->
               f_lshift_macro x n = Some (unpack_s64b (to_s64b (x * 2 ^ n)))).
  { intros H0 Hfit. apply f_lshift_macro_wrapped; [| exact Hn | exact Hfit].
    unfold is_s64b in Hx. lia. }
  assert (H : f_lshift_macro x n <> None <-> 0 <= x /\ x * 2 ^ n <= UINT64_MAX).
  { split.
    - intros Hd. destruct (f_lshift_macro x n) as [p |] eqn:E; [| contradiction].
      exact (f_lshift_macro_defined_inv x n p Hx Hn E).
    - intros [H0 Hfit]. rewrite (Hv H0 Hfit). discriminate. }
  split; [exact H |]. split; [exact H |].
  intros H0 Hfit. split; exact (Hv H0 Hfit).
Qed.

Lemma f_lshift_defined_iff_witness :
  is_s64b (2 ^ 61) /\ 1 <= 2 <= 31 /\
  0 <= 2 ^ 61 /\ 2 ^ 61 * 2 ^ 2 <= UINT64_MAX /\
  f_lshift (2 ^ 61) 2 = Some (- 2 ^ 31, 0) /\
  f_lshift_macro (2 ^ 61) 2 = Some (- 2 ^ 31, 0) /\
  f_lshift (2 ^ 62) 2 = None /\ f_lshift (-1) 1 = None.
Proof.
  assert (Hx : is_s64b (2 ^ 61)) by (unfold is_s64b, INT64_MIN, INT64_MAX; lia).
  assert (Hy : is_s64b (2 ^ 62)) by (unfold is_s64b, INT64_MIN, INT64_MAX; lia).
  assert (Hz : is_s64b (-1)) by (unfold is_s64b, INT64_MIN, INT64_MAX; lia).
  assert (Hn : 1 <= 2 <= 31) by lia.
  assert (H0 : 0 <= 2 ^ 61) by lia.
  assert (Hfit : 2 ^ 61 * 2 ^ 2 <= UINT64_MAX) by (unfold UINT64_MAX; lia).
  split; [exact Hx |]. split; [exact Hn |].
  split; [exact H0 |]. split; [exact Hfit |].
  destruct (f_lshift_defined_iff (2 ^ 61) 2 Hx Hn) as (_ & _ & Hv).
  destruct (Hv H0 Hfit) as [E1 E2].
  split; [exact E1 |]. split; [exact E2 |]. split.
  - destruct (f_lshift (2 ^ 62) 2) eqn:E; [| reflexivity].
    assert (Hd : f_lshift (2 ^ 62) 2 <> None) by (rewrite E; discriminate).
    apply (proj1 (proj1 (f_lshift_defined_iff (2 ^ 62) 2 Hy Hn))) in Hd.
    unfold UINT64_MAX in Hd. lia.
  - destruct (f_lshift (-1) 1) eqn:E; [| reflexivity].
    assert (Hd : f_lshift (-1) 1 <> None) by (rewrite E; discriminate).
    apply (proj1 (proj1 (f_lshift_defined_iff (-1) 1 Hz ltac:(lia)))) in Hd.
    lia.
Defined.

(** X5: on the whole signed 64-bit range and for an amount in 1..31, both
    right-shift variants return the lanes of the floor quotient [x / 2^n],
    which for a negative [x] is the arithmetic shift. *)
Theorem f_rshift_lanes_of_quotient (x n : Z) :
  is_s64b x -> 1 <= n <= 31 ->
  f_rshift x n = Some (unpack_s64b (x / 2 ^ n)) /\
  f_rshift_macro x n = Some (unpack_s64b (x / 2 ^ n)).
Proof.
  intros Hx Hn. split.
  - now apply f_rshift_value.
  - now apply f_rshift_macro_value.
Qed.

Lemma f_rshift_lanes_of_quotient_witness :
  is_s64b (-5) /\ 1 <= 1 <= 31 /\
  f_rshift (-5) 1 = Some (unpack_s64b (-3)) /\
  f_rshift_macro (-5) 1 = Some (unpack_s64b (-3)).
Proof.
  assert (Hx : is_s64b (-5)) by (unfold is_s64b, INT64_MIN, INT64_MAX; lia).
  assert (Hn : 1 <= 1 <= 31) by lia.
  split; [exact Hx |]. split; [exact Hn |].
  exact (f_rshift_lanes_of_quotient (-5) 1 Hx Hn).
Defined.

Lemma amount_ok_outside (w n : Z) : n < 0 \/ w <= n -> amount_ok w n = false.
Proof.
  intros [H | H]; unfold amount_ok.
  - apply andb_false_intro1. apply Z.leb_gt. exact H.
  - apply andb_false_intro2. apply Z.ltb_ge. exact H.
Qed.

Lemma s64b_LSHIFT_2_outside (V1 V2 N : Z) :
  N < 0 \/ 32 <= N -> s64b_LSHIFT_2 V1 V2 N = None.
Proof.
  intros H. unfold s64b_LSHIFT_2, s32b_shl.
  rewrite amount_ok_outside by exact H. reflexivity.
Qed.

Lemma s64b_RSHIFT_2_outside (V1 V2 N : Z) :
  N < 0 \/ 32 <= N -> s64b_RSHIFT_2 V1 V2 N = None.
Proof.
  intros H. unfold s64b_RSHIFT_2, u32b_shl, u32b_shr.
  rewrite (amount_ok_outside 32 N) by exact H.
  destruct (amount_ok 32 (32 - N)); reflexivity.
Qed.

(** X6: an amount below 0 or above 31 makes all four variants undefined,
    whatever the value: one of their lane shifts then has an amount outside
    0..31.  The guard of the functions only covers the amount 0. *)
Theorem shift_amount_out_of_range (x n : Z) :
  n < 0 \/ 32 <= n ->
  f_lshift x n = None /\ f_lshift_macro x n = None /\
  f_rshift x n = None /\ f_rshift_macro x n = None.
Proof.
  intros H.
  rewrite f_lshift_nonzero, f_rshift_nonzero by lia.
  unfold f_lshift_macro, f_rshift_macro.
  destruct (unpack_s64b x) as [hi lo].
  rewrite s64b_LSHIFT_2_outside, s64b_RSHIFT_2_outside by exact H.
  repeat split.
Qed.

Lemma shift_amount_out_of_range_witness :
  (32 < 0 \/ 32 <= 32) /\
  f_lshift 1 32 = None /\ f_lshift_macro 1 32 = None /\
  f_rshift 1 32 = None /\ f_rshift_macro 1 32 = None.
Proof.
  assert (H : 32 < 0 \/ 32 <= 32) by (right; lia).
  split; [exact H | exact (shift_amount_out_of_range 1 32 H)].
Defined.

(** X7: at the amount 0 both macro variants are undefined for every value
    (the left one evaluates [V2 >> 32], the right one [(u32b)V1 << 32]),
    while both functions return. *)
Theorem macro_undefined_at_zero (x : Z) :
  f_lshift_macro x 0 = None /\ f_rshift_macro x 0 = None /\
  f_lshift x 0 <> None /\ f_rshift x 0 <> None.
Proof.
  unfold f_lshift_macro, f_rshift_macro, f_lshift, f_rshift.
  destruct (unpack_s64b x) as [hi lo].
  rewrite s64b_LSHIFT_2_zero_undefined, s64b_RSHIFT_2_zero_undefined.
  rewrite s64b_lshift_zero, s64b_rshift_zero.
  repeat split; discriminate.
Qed.

(** ** More on the largest safe amount *)

(** X8: for a positive 64-bit [x] and an amount [n] in 0..31, [n] is at most
    [lshift_count_max x] exactly when [x * 2^n] fits the signed 64-bit range:
    the result is the largest safe amount, not only a safe one. *)
Theorem lshift_count_max_largest (x n : Z) :
  0 < x <= INT64_MAX -> 0 <= n <= 31 ->
  (n <= lshift_count_max x <-> x * 2 ^ n <= INT64_MAX).
Proof.
  intros Hx Hn. split.
  - intros Hle. apply lshift_count_max_no_overflow; lia.
  - intros Hfit.
    destruct (lshift_count_max_pos x Hx) as (c & Hc & Hr & ->).
    unfold INT64_MAX in *.
    assert (Hpn : 0 < 2 ^ n) by (apply Z.pow_pos_nonneg; lia).
    assert (Hlt : 2 ^ (63 - c + n) < 2 ^ 63).
    { rewrite pow2_split by lia. nia. }
    apply Z.pow_lt_mono_r_iff in Hlt; lia.
Qed.

Lemma lshift_count_max_largest_witness :
  0 < 3 <= INT64_MAX /\ 0 <= 31 <= 31 /\ 31 <= lshift_count_max 3.
Proof.
  assert (Hx : 0 < 3 <= INT64_MAX) by (unfold INT64_MAX; lia).
  assert (Hn : 0 <= 31 <= 31) by lia.
  split; [exact Hx |]. split; [exact Hn |].
  apply (proj2 (lshift_count_max_largest 3 31 Hx Hn)).
  unfold INT64_MAX. lia.
Defined.

(** X9: for a positive 64-bit [x] the result is 62 minus the position of the
    highest set bit of [x], capped at 31. *)
Theorem lshift_count_max_log2 (x : Z) :
  0 < x <= INT64_MAX -> lshift_count_max x = Z.min 31 (62 - Z.log2 x).
Proof.
  intros Hx.
  destruct (lshift_count_max_pos x Hx) as (c & Hc & Hr & ->).
  assert (E : Z.log2 x = 63 - c).
  { apply Z.log2_unique; [lia |].
    replace (Z.succ (63 - c)) with (64 - c) by lia. exact Hr. }
  rewrite E. f_equal. lia.
Qed.

Lemma lshift_count_max_log2_witness :
  0 < 2 ^ 50 + 1 <= INT64_MAX /\ lshift_count_max (2 ^ 50 + 1) = 12.
Proof.
  assert (Hx : 0 < 2 ^ 50 + 1 <= INT64_MAX) by (unfold INT64_MAX; lia).
  split; [exact Hx |].
  exact (lshift_count_max_log2 (2 ^ 50 + 1) Hx).
Defined.

Lemma builtin_clzll_sign_bit (u : Z) :
  2 ^ 63 <= u < 2 ^ 64 -> builtin_clzll u = 0.
Proof.
  intros Hu. unfold builtin_clzll.
  change 64%nat with (S 63). cbn [clz_below].
  replace (Z.testbit u (Z.of_nat 63)) with true; [reflexivity |].
  symmetry. apply Z.testbit_true; [lia |].
  change (Z.of_nat 63) with 63.
  replace (u / 2 ^ 63) with 1; [reflexivity |].
  apply Z.div_unique with (r := u - 2 ^ 63); lia.
Qed.

(** X10: on a negative 64-bit [x] the sign bit of [(u64b)x] is set, so
    [lshift_count_max] returns -1 and the left-shift loop of [test] visits
    no amount. *)
Theorem lshift_count_max_negative (x : Z) :
  INT64_MIN <= x < 0 ->
  lshift_count_max x = -1 /\ lshift_amounts x = [].
Proof.
  unfold INT64_MIN. intros Hx.
  assert (E : lshift_count_max x = -1).
  { unfold lshift_count_max.
    destruct (Z.eqb_spec x 0) as [E0 | _]; [lia |].
    rewrite builtin_clzll_sign_bit; [reflexivity |].
    unfold to_u64b, to_unsigned.
    replace (x mod 2 ^ 64) with (x + 2 ^ 64); [lia |].
    apply Z.mod_unique with (q := -1); lia. }
  split; [exact E |].
  unfold lshift_amounts. apply for_amounts_nil. lia.
Qed.

Lemma lshift_count_max_negative_witness :
  INT64_MIN <= -1 < 0 /\ lshift_count_max (-1) = -1 /\ lshift_amounts (-1) = [].
Proof.
  assert (Hx : INT64_MIN <= -1 < 0) by (unfold INT64_MIN; lia).
  split; [exact Hx | exact (lshift_count_max_negative (-1) Hx)].
Defined.

(** X11: for a non-negative 64-bit [x] the cap is reached, that is, the
    result is 31, exactly when [x < 2^32]; so for every value [x] of the
    second distribution of [main], over [0, 1 << 16], the left-shift loop of
    [test] visits exactly the amounts 1..31, and [check_lshift] returns at
    each of them. *)
Theorem lshift_count_max_31_iff (x : Z) :
  0 <= x <= INT64_MAX ->
  (lshift_count_max x = 31 <-> x < 2 ^ 32) /\
  (x <= Z.shiftl 1 16 ->
   lshift_amounts x = map Z.of_nat (seq 1 31) /\
   forall n, 1 <= n <= 31 ->
     In n (lshift_amounts x) /\ check_lshift x n = Some []).
Proof.
  intros Hx.
  assert (Hiff : lshift_count_max x = 31 <-> x < 2 ^ 32).
  { destruct (Z.eq_dec x 0) as [-> | Hnz]; [cbn; lia |].
    destruct (lshift_count_max_pos x ltac:(lia)) as (c & Hc & Hr & ->).
    split.
    - intros E. assert (Hc32 : 32 <= c) by lia.
      assert (Hle : 2 ^ (64 - c) <= 2 ^ 32) by (apply Z.pow_le_mono_r; lia).
      lia.
    - intros Hlt.
      destruct (Z_lt_le_dec c 32) as [Hsmall | Hbig]; [| lia].
      assert (Hle : 2 ^ 32 <= 2 ^ (63 - c)) by (apply Z.pow_le_mono_r; lia).
      lia. }
  split; [exact Hiff |].
  intros H16. change (Z.shiftl 1 16) with 65536 in H16.
  assert (E : lshift_count_max x = 31) by (apply Hiff; lia).
  split.
  - unfold lshift_amounts. rewrite E. reflexivity.
  - intros n Hn. split.
    + apply lshift_amounts_In. lia.
    + apply check_lshift_silent; [exact Hx | lia].
Qed.

Lemma lshift_count_max_31_iff_witness :
  0 <= 2 ^ 16 <= INT64_MAX /\ 2 ^ 16 <= Z.shiftl 1 16 /\
  lshift_count_max (2 ^ 16) = 31 /\
  lshift_amounts (2 ^ 16) = map Z.of_nat (seq 1 31) /\
  In 31 (lshift_amounts (2 ^ 16)) /\ check_lshift (2 ^ 16) 31 = Some [].
Proof.
  assert (Hx : 0 <= 2 ^ 16 <= INT64_MAX) by (unfold INT64_MAX; lia).
  assert (H16 : 2 ^ 16 <= Z.shiftl 1 16) by (cbn; lia).
  destruct (lshift_count_max_31_iff (2 ^ 16) Hx) as [Hiff Hsweep].
  destruct (Hsweep H16) as [Hl Hall].
  split; [exact Hx |]. split; [exact H16 |].
  split; [apply Hiff; lia |]. split; [exact Hl |].
  apply Hall. lia.
Defined.

Lemma for_amounts_seq (fuel : nat) (b : Z) (s : nat) :
  b - Z.of_nat s < Z.of_nat fuel ->
  for_amounts fuel (fun m => m <=? b) (Z.of_nat s) =
  map Z.of_nat (seq s (Z.to_nat (b - Z.of_nat s + 1))).
Proof.
  revert s. induction fuel as [| fuel IH]; intros s Hf.
  - replace (Z.to_nat (b - Z.of_nat s + 1)) with 0%nat by lia. reflexivity.
  - cbn [for_amounts]. destruct (Z.leb_spec (Z.of_nat s) b) as [Hle | Hgt].
    + replace (Z.to_nat (b - Z.of_nat s + 1))
        with (S (Z.to_nat (b - Z.of_nat (S s) + 1))) by lia.
      cbn [seq map]. f_equal.
      replace (Z.of_nat s + 1) with (Z.of_nat (S s)) by lia.
      apply IH. lia.
    + replace (Z.to_nat (b - Z.of_nat s + 1)) with 0%nat by lia. reflexivity.
Qed.

(** X12: the left-shift loop of [test] visits the amounts
    1, 2, ..., [lshift_count_max x], each once and in this order, whatever
    [x] is; its 32 units of fuel never run out first. *)
Theorem lshift_amounts_seq (x : Z) :
  lshift_amounts x = map Z.of_nat (seq 1 (Z.to_nat (lshift_count_max x))).
Proof.
  unfold lshift_amounts.
  pose proof (lshift_count_max_le_31 x) as H31.
  change 1 with (Z.of_nat 1) at 1.
  rewrite for_amounts_seq by lia.
  do 2 f_equal. lia.
Qed.

(** ** Shifting twice *)

Lemma f_rshift_value0 (x n : Z) :
  is_s64b x -> 0 <= n <= 31 -> f_rshift x n = Some (unpack_s64b (x / 2 ^ n)).
Proof.
  intros Hx Hn. destruct (Z.eq_dec n 0) as [-> | Hnz].
  - change (2 ^ 0) with 1. rewrite Z.div_1_r.
    unfold f_rshift. destruct (unpack_s64b x) as [hi lo].
    apply s64b_rshift_zero.
  - apply f_rshift_value; [exact Hx | lia].
Qed.

Lemma f_lshift_value0 (x n : Z) :
  0 <= x <= INT64_MAX -> 0 <= n <= 31 -> x * 2 ^ n <= INT64_MAX ->
  f_lshift x n = Some (unpack_s64b (x * 2 ^ n)).
Proof.
  intros Hx Hn Hfit. destruct (Z.eq_dec n 0) as [-> | Hnz].
  - change (2 ^ 0) with 1. rewrite Z.mul_1_r.
    unfold f_lshift. destruct (unpack_s64b x) as [hi lo].
    apply s64b_lshift_zero.
  - apply f_lshift_value; [exact Hx | lia | exact Hfit].
Qed.

Lemma s64b_rshift_unpack (y n : Z) :
  s64b_rshift (fst (unpack_s64b y)) (snd (unpack_s64b y)) n = f_rshift y n.
Proof. unfold f_rshift. destruct (unpack_s64b y) as [hi lo]. reflexivity. Qed.

Lemma s64b_lshift_unpack (y n : Z) :
  s64b_lshift (fst (unpack_s64b y)) (snd (unpack_s64b y)) n = f_lshift y n.
Proof. unfold f_lshift. destruct (unpack_s64b y) as [hi lo]. reflexivity. Qed.

Lemma nonneg_is_s64b (x : Z) : 0 <= x <= INT64_MAX -> is_s64b x.
Proof. unfold is_s64b, INT64_MIN, INT64_MAX. lia. Qed.

(** X13: right shifts compose: shifting a 64-bit [x] by [m] and the
    resulting lanes by [n] gives what one shift by [m + n] gives, as long as
    [m + n <= 31]; either amount may be 0. *)
Theorem s64b_rshift_compose (x m n : Z) :
  is_s64b x -> 0 <= m -> 0 <= n -> m + n <= 31 ->
  (p <- f_rshift x m ;; s64b_rshift (fst p) (snd p) n) = f_rshift x (m + n).
Proof.
  intros Hx Hm Hn Hmn.
  assert (Hpm : 0 < 2 ^ m) by (apply Z.pow_pos_nonneg; lia).
  assert (Hpn : 0 < 2 ^ n) by (apply Z.pow_pos_nonneg; lia).
  rewrite (f_rshift_value0 x m) by (assumption || lia). cbn [ub_bind].
  rewrite s64b_rshift_unpack.
  rewrite (f_rshift_value0 (x / 2 ^ m) n)
    by (try apply shiftr_is_s64b; assumption || lia).
  rewrite (f_rshift_value0 x (m + n)) by (assumption || lia).
  rewrite Z.div_div by lia. rewrite <- pow2_split by lia. reflexivity.
Qed.

Lemma s64b_rshift_compose_witness :
  is_s64b (-1000) /\
  (p <- f_rshift (-1000) 3 ;; s64b_rshift (fst p) (snd p) 4)
  = f_rshift (-1000) (3 + 4).
Proof.
  assert (Hx : is_s64b (-1000)) by (unfold is_s64b, INT64_MIN, INT64_MAX; lia).
  split; [exact Hx |].
  apply (s64b_rshift_compose (-1000) 3 4 Hx); lia.
Defined.

(** X14: left shifts compose: for a non-negative 64-bit [x], shifting by [m]
    and the resulting lanes by [n] gives what one shift by [m + n] gives, as
    long as [m + n <= lshift_count_max x]. *)
Theorem s64b_lshift_compose (x m n : Z) :
  0 <= x <= INT64_MAX -> 0 <= m -> 0 <= n -> m + n <= lshift_count_max x ->
  (p <- f_lshift x m ;; s64b_lshift (fst p) (snd p) n) = f_lshift x (m + n).
Proof.
  intros Hx Hm Hn Hmn.
  pose proof (lshift_count_max_le_31 x) as H31.
  assert (Hpm : 0 < 2 ^ m) by (apply Z.pow_pos_nonneg; lia).
  assert (Hpn : 0 < 2 ^ n) by (apply Z.pow_pos_nonneg; lia).
  pose proof (lshift_count_max_no_overflow x m Hx ltac:(lia)) as Hfm.
  pose proof (lshift_count_max_no_overflow x (m + n) Hx ltac:(lia)) as Hfmn.
  rewrite pow2_split in Hfmn by lia.
  rewrite (f_lshift_value0 x m) by (assumption || lia). cbn [ub_bind].
  rewrite s64b_lshift_unpack.
  rewrite (f_lshift_value0 (x * 2 ^ m) n) by (unfold INT64_MAX in *; nia).
  rewrite (f_lshift_value0 x (m + n))
    by (rewrite ?pow2_split by lia; assumption || lia).
  rewrite pow2_split by lia. rewrite Z.mul_assoc. reflexivity.
Qed.

Lemma s64b_lshift_compose_witness :
  0 <= 5 <= INT64_MAX /\ 10 + 21 <= lshift_count_max 5 /\
  (p <- f_lshift 5 10 ;; s64b_lshift (fst p) (snd p) 21) = f_lshift 5 (10 + 21).
Proof.
  assert (Hx : 0 <= 5 <= INT64_MAX) by (unfold INT64_MAX; lia).
  assert (Hmn : 10 + 21 <= lshift_count_max 5) by (vm_compute; discriminate).
  split; [exact Hx |]. split; [exact Hmn |].
  apply (s64b_lshift_compose 5 10 21 Hx); [lia | lia | exact Hmn].
Defined.

(** X15: a left shift is undone by the right shift of the same amount: for a
    non-negative 64-bit [x] and [0 <= n <= lshift_count_max x], shifting left
    by [n] and the resulting lanes right by [n] gives the lanes of [x]. *)
Theorem s64b_lshift_then_rshift (x n : Z) :
  0 <= x <= INT64_MAX -> 0 <= n <= lshift_count_max x ->
  (p <- f_lshift x n ;; s64b_rshift (fst p) (snd p) n) = Some (unpack_s64b x).
Proof.
  intros Hx Hn.
  pose proof (lshift_count_max_le_31 x) as H31.
  assert (Hpn : 0 < 2 ^ n) by (apply Z.pow_pos_nonneg; lia).
  pose proof (lshift_count_max_no_overflow x n Hx Hn) as Hfit.
  rewrite (f_lshift_value0 x n) by (assumption || lia). cbn [ub_bind].
  rewrite s64b_rshift_unpack.
  rewrite f_rshift_value0
    by (try apply nonneg_is_s64b; unfold INT64_MAX in *; nia).
  rewrite Z.div_mul by lia. reflexivity.
Qed.

Lemma s64b_lshift_then_rshift_witness :
  0 <= 2 ^ 32 - 1 <= INT64_MAX /\ 0 <= 31 <= lshift_count_max (2 ^ 32 - 1) /\
  (p <- f_lshift (2 ^ 32 - 1) 31 ;; s64b_rshift (fst p) (snd p) 31)
  = Some (unpack_s64b (2 ^ 32 - 1)).
Proof.
  assert (Hx : 0 <= 2 ^ 32 - 1 <= INT64_MAX) by (unfold INT64_MAX; lia).
  assert (Hn : 0 <= 31 <= lshift_count_max (2 ^ 32 - 1))
    by (vm_compute; split; discriminate).
  split; [exact Hx |]. split; [exact Hn |].
  exact (s64b_lshift_then_rshift (2 ^ 32 - 1) 31 Hx Hn).
Defined.

(** X16: a right shift followed by the left shift of the same amount clears
    the low bits: for a non-negative 64-bit [x] and [0 <= n <= 31] the result
    is the lanes of [x - x mod 2^n], and the left shift is always defined
    there. *)
Theorem s64b_rshift_then_lshift (x n : Z) :
  0 <= x <= INT64_MAX -> 0 <= n <= 31 ->
  (p <- f_rshift x n ;; s64b_lshift (fst p) (snd p) n)
  = Some (unpack_s64b (x - x mod 2 ^ n)).
Proof.
  intros Hx Hn.
  assert (Hpn : 0 < 2 ^ n) by (apply Z.pow_pos_nonneg; lia).
  pose proof (Z.div_mod x (2 ^ n) ltac:(lia)) as Hdm.
  pose proof (Z.mod_pos_bound x (2 ^ n) ltac:(lia)) as Hmb.
  assert (Hq : 0 <= x / 2 ^ n) by (apply Z.div_pos; lia).
  rewrite (f_rshift_value0 x n) by (try apply nonneg_is_s64b; assumption).
  cbn [ub_bind]. rewrite s64b_lshift_unpack.
  rewrite f_lshift_value0 by (unfold INT64_MAX in *; nia).
  do 2 f_equal. lia.
Qed.

Lemma s64b_rshift_then_lshift_witness :
  0 <= 1023 <= INT64_MAX /\ 0 <= 4 <= 31 /\
  (p <- f_rshift 1023 4 ;; s64b_lshift (fst p) (snd p) 4)
  = Some (unpack_s64b (1023 - 1023 mod 2 ^ 4)).
Proof.
  assert (Hx : 0 <= 1023 <= INT64_MAX) by (unfold INT64_MAX; lia).
  assert (Hn : 0 <= 4 <= 31) by lia.
  split; [exact Hx |]. split; [exact Hn |].
  exact (s64b_rshift_then_lshift 1023 4 Hx Hn).
Defined.

(** ** The lanes stay lanes *)

Lemma to_s32b_range (v : Z) : is_s32b (to_s32b v).
Proof.
  unfold is_s32b, INT32_MIN, INT32_MAX, to_s32b, to_signed, to_unsigned.
  pose proof (Z.mod_pos_bound v (2 ^ 32) ltac:(lia)) as Hm.
  change (32 - 1) with 31.
  destruct (Z.ltb_spec (v mod 2 ^ 32) (2 ^ 31)); lia.
Qed.

Lemma to_u32b_range (v : Z) : is_u32b (to_u32b v).
Proof.
  unfold is_u32b, UINT32_MAX, to_u32b, to_unsigned.
  pose proof (Z.mod_pos_bound v (2 ^ 32) ltac:(lia)) as Hm. lia.
Qed.

Lemma s64b_LSHIFT_2_lanes (V1 V2 N : Z) (p : HalfPair) :
  s64b_LSHIFT_2 V1 V2 N = Some p -> is_s32b (fst p) /\ is_u32b (snd p).
Proof.
  unfold s64b_LSHIFT_2.
  destruct (s32b_shl V1 N) as [a |]; [| discriminate].
  destruct (u32b_shr V2 (32 - N)) as [b |]; [| discriminate].
  unfold u32b_shl. destruct (amount_ok 32 N); [| discriminate].
  cbn [ub_bind]. intros H. injection H as <-. cbn [fst snd].
  split; [apply to_s32b_range | apply to_u32b_range].
Qed.

Lemma s64b_RSHIFT_2_lanes (V1 V2 N : Z) (p : HalfPair) :
  is_s32b V1 -> is_u32b V2 -> s64b_RSHIFT_2 V1 V2 N = Some p ->
  is_s32b (fst p) /\ is_u32b (snd p).
Proof.
  intros H1 H2 E.
  destruct (Z_lt_le_dec N 0) as [Hneg | H0];
    [rewrite s64b_RSHIFT_2_outside in E by lia; discriminate E |].
  destruct (Z_lt_le_dec N 32) as [H32 | Hbig];
    [| rewrite s64b_RSHIFT_2_outside in E by lia; discriminate E].
  destruct (Z.eq_dec N 0) as [-> | Hnz];
    [rewrite s64b_RSHIFT_2_zero_undefined in E; discriminate E |].
  rewrite s64b_RSHIFT_2_value in E
    by (assumption || unfold is_u32b, UINT32_MAX in H2; lia).
  injection E as <-. cbn [fst snd].
  assert (Hs : is_s64b ((V1 * 2 ^ 32 + V2) / 2 ^ N)).
  { apply shiftr_is_s64b; [| lia].
    unfold is_s64b, is_s32b, is_u32b, INT64_MIN, INT64_MAX, INT32_MIN,
      INT32_MAX, UINT32_MAX in *. lia. }
  pose proof (unpack_s64b_lanes _ Hs) as Hl.
  rewrite unpack_s64b_value in Hl by exact Hs. exact Hl.
Qed.

(** X17: the shift functions keep the pair well-formed: from a signed
    32-bit high lane and an unsigned 32-bit low lane, whenever [s64b_lshift]
    or [s64b_rshift] returns, the high lane is again a signed and the low lane
    an unsigned 32-bit value. *)
Theorem s64b_shift_keeps_lanes (hi lo n : Z) (p : HalfPair) :
  is_s32b hi -> is_u32b lo ->
  s64b_lshift hi lo n = Some p \/ s64b_rshift hi lo n = Some p ->
  is_s32b (fst p) /\ is_u32b (snd p).
Proof.
  intros Hhi Hlo H.
  destruct (Z.eq_dec n 0) as [-> | Hnz].
  - rewrite s64b_lshift_zero, s64b_rshift_zero in H.
    assert (E : (hi, lo) = p) by (destruct H as [H | H]; congruence).
    subst p. split; assumption.
  - rewrite s64b_lshift_nonzero, s64b_rshift_nonzero in H by exact Hnz.
    destruct H as [H | H].
    + exact (s64b_LSHIFT_2_lanes hi lo n p H).
    + exact (s64b_RSHIFT_2_lanes hi lo n p Hhi Hlo H).
Qed.

Lemma s64b_shift_keeps_lanes_witness :
  is_s32b (-1) /\ is_u32b 5 /\
  s64b_rshift (-1) 5 3 = Some (-1, 3758096384) /\
  is_s32b (-1) /\ is_u32b 3758096384.
Proof.
  assert (Hhi : is_s32b (-1)) by (unfold is_s32b, INT32_MIN, INT32_MAX; lia).
  assert (Hlo : is_u32b 5) by (unfold is_u32b, UINT32_MAX; lia).
  assert (E : s64b_rshift (-1) 5 3 = Some (-1, 3758096384)) by reflexivity.
  split; [exact Hhi |]. split; [exact Hlo |]. split; [exact E |].
  exact (s64b_shift_keeps_lanes (-1) 5 3 (-1, 3758096384) Hhi Hlo (or_intror E)).
Defined.

(** ** The harness *)

Lemma f_lshift_macro_zero (x : Z) : f_lshift_macro x 0 = None.
Proof.
  unfold f_lshift_macro. destruct (unpack_s64b x) as [hi lo].
  apply s64b_LSHIFT_2_zero_undefined.
Qed.

Lemma f_rshift_macro_zero (x : Z) : f_rshift_macro x 0 = None.
Proof.
  unfold f_rshift_macro. destruct (unpack_s64b x) as [hi lo].
  apply s64b_RSHIFT_2_zero_undefined.
Qed.

(** X18: the checkers never report a mismatch, for any value and any amount,
    also outside the ranges the driver uses: a call either runs into an
    undefined shift or prints nothing. *)
Theorem check_never_reports (x n : Z) :
  (check_lshift x n = None \/ check_lshift x n = Some []) /\
  (check_rshift x n = None \/ check_rshift x n = Some []).
Proof.
  unfold check_lshift, check_rshift.
  destruct (Z.eq_dec n 0) as [-> | Hnz].
  - rewrite f_lshift_macro_zero, f_rshift_macro_zero.
    split; left.
    + destruct (f_lshift x 0); reflexivity.
    + destruct (f_rshift x 0); reflexivity.
  - rewrite f_lshift_nonzero, f_rshift_nonzero by exact Hnz.
    split.
    + destruct (f_lshift_macro x n) as [p |]; [right | left; reflexivity].
      cbn [ub_bind]. now rewrite HalfPair_eqb_refl.
    + destruct (f_rshift_macro x n) as [p |]; [right | left; reflexivity].
      cbn [ub_bind]. now rewrite HalfPair_eqb_refl.
Qed.

Lemma test_silent (xs : list Z) :
  Forall (fun x => 0 <= x <= INT64_MAX) xs -> test xs = Some [].
Proof.
  induction 1 as [| x xs Hx _ IH]; [reflexivity |].
  cbn [test]. rewrite test_body_silent by exact Hx.
  rewrite IH. reflexivity.
Qed.

(** X19: whatever the two distributions draw, the run of [main] meets no
    undefined shift, passes every assertion and prints no mismatch: for
    draws [xs1] in [0, INT64_MAX] and [xs2] in [0, 1 << 16] the output is
    empty. *)
Theorem main_silent (xs1 xs2 : list Z) :
  Forall (fun x => 0 <= x <= INT64_MAX) xs1 ->
  Forall (fun x => 0 <= x <= Z.shiftl 1 16) xs2 ->
  main xs1 xs2 = Some [].
Proof.
  intros H1 H2. unfold main.
  rewrite main_probes_silent. cbn [ub_bind].
  rewrite (test_silent xs1 H1). cbn [ub_bind].
  rewrite (test_silent xs2); [reflexivity |].
  eapply Forall_impl; [| exact H2].
  cbn beta. intros x Hx. change (Z.shiftl 1 16) with 65536 in Hx.
  unfold INT64_MAX. lia.
Qed.

Lemma main_silent_witness :
  Forall (fun x => 0 <= x <= INT64_MAX) [INT64_MAX; 0; 2 ^ 62] /\
  Forall (fun x => 0 <= x <= Z.shiftl 1 16) [65536; 1] /\
  main [INT64_MAX; 0; 2 ^ 62] [65536; 1] = Some [].
Proof.
  assert (H1 : Forall (fun x => 0 <= x <= INT64_MAX) [INT64_MAX; 0; 2 ^ 62])
    by (repeat constructor; unfold INT64_MAX; lia).
  assert (H2 : Forall (fun x => 0 <= x <= Z.shiftl 1 16) [65536; 1])
    by (repeat constructor; cbn; lia).
  split; [exact H1 |]. split; [exact H2 |].
  exact (main_silent _ _ H1 H2).
Defined.
